(** * XKCDService: the caching comic service of src/services/xkcdService.js

    A shallow embedding of the service class: its in-memory cache (a JS
    [Map] keyed by strings), the wall clock read by [Date.now()], the
    upstream reached through [fetch] and the random source behind
    [Math.random()].  Every [async] method becomes a computation in a
    small state-and-exception monad over the [World]; a thrown
    [Error(message)] is represented by its message.

    Abstractions made by the embedding:
    - JS strings are sequences of 8-bit code units ([string]); [trim] and
      [toLowerCase] are given on that range.
    - JS Numbers holding integers are [Z]; a Number that is not an integer
      (a fraction, NaN, an infinity) is the value [JsNonInt].  Arithmetic
      on them is exact; the double arithmetic of the code agrees with it as
      long as the values stay below 2^53, and a statement that depends on
      a product or on a parsed number says so with that bound.
    - [setTimeout(r, d)] advances the clock by exactly [d] ms, and a fetch
      by the latency the upstream oracle reports. *)

From Stdlib Require Import ZArith Ascii String List Sorted.
From stdpp Require Import base tactics numbers option list sorting gmap strings pretty.

Local Open Scope string_scope.
Local Open Scope Z_scope.

(** ** JavaScript values that reach the service as arguments *)

Inductive JsValue : Type :=
  | JsUndefined
  | JsInt (n : Z)
  | JsNonInt
  | JsString (s : string)
  | JsOther.

(** [Number.isInteger(v)] *)
Definition Number_isInteger (v : JsValue) : bool :=
  match v with
  | JsInt _ => true
  | _ => false
  end.

(** The value of a Number already known to be an integer. *)
Definition numberValue (v : JsValue) : Z :=
  match v with
  | JsInt n => n
  | _ => 0
  end.

(** ** Strings *)

(** White space of [String.prototype.trim] among 8-bit code units:
    TAB, LF, VT, FF, CR, SPACE and NBSP. *)
Definition isWhiteSpace (c : ascii) : bool :=
  let n := N_of_ascii c in
  ((9 <=? n) && (n <=? 13) || (n =? 32) || (n =? 160))%N.

Fixpoint trimStart (s : string) : string :=
  match s with
  | EmptyString => EmptyString
  | String c r => if isWhiteSpace c then trimStart r else s
  end.

Fixpoint trimEnd (s : string) : string :=
  match s with
  | EmptyString => EmptyString
  | String c r =>
      match trimEnd r with
      | EmptyString => if isWhiteSpace c then EmptyString else String c EmptyString
      | r' => String c r'
      end
  end.

Definition trim (s : string) : string := trimEnd (trimStart s).

(** [toLowerCase] on 8-bit code units: A-Z and the Latin-1 capitals
    (0xC0-0xDE without the multiplication sign 0xD7) move up by 32.  On
    code units beyond this range the built-in can change the length of a
    string (U+0130 becomes two code units), so nothing below relies on the
    length of a lower-cased string. *)
Definition lowerChar (c : ascii) : ascii :=
  let n := N_of_ascii c in
  if ((65 <=? n) && (n <=? 90)
      || (192 <=? n) && (n <=? 222) && negb (n =? 215))%N
  then ascii_of_N (n + 32) else c.

Fixpoint toLowerCase (s : string) : string :=
  match s with
  | EmptyString => EmptyString
  | String c r => String (lowerChar c) (toLowerCase r)
  end.

(** [hay.includes(q)]: [q] occurs in [hay] as a contiguous substring. *)
Fixpoint includes (hay q : string) : bool :=
  String.prefix q hay ||
  match hay with
  | EmptyString => false
  | String _ r => includes r q
  end.

(** ** Comics *)

(** The JSON document served by the upstream. *)
Record RawComic : Type := mkRaw {
  num : Z;
  raw_title : string;
  raw_img : string;
  raw_alt : string;
  raw_transcript : option string;
  raw_year : string;
  raw_month : string;
  raw_day : string;
  raw_safe_title : string
}.

Record Comic : Type := mkComic {
  id : Z;
  title : string;
  img : string;
  alt : string;
  transcript : string;
  year : string;
  month : string;
  day : string;
  safe_title : string
}.

(** [s || d] on an optional string: absent and empty are both falsy. *)
Definition or_else (s : option string) (d : string) : string :=
  match s with
  | Some (String c r) => String c r
  | _ => d
  end.

Definition processComic (comic : RawComic) : Comic :=
  {| id := num comic;
     title := raw_title comic;
     img := raw_img comic;
     alt := raw_alt comic;
     transcript := or_else (raw_transcript comic) "";
     year := raw_year comic;
     month := raw_month comic;
     day := raw_day comic;
     safe_title := raw_safe_title comic |}.

(** ** The upstream as seen through [fetch] *)

(** What [await response.json()] gives. *)
Inductive JsonOutcome : Type :=
  | JsonThrows (message : string)
  | JsonBody (comic : RawComic).

Record Response : Type := mkResponse {
  status : Z;
  statusText : string;
  ok : bool;
  json : JsonOutcome
}.

(** What [await fetch(url)] gives: a rejection, a falsy value, or a
    response object. *)
Inductive FetchOutcome : Type :=
  | Rejects (message : string)
  | Falsy
  | Resolves (response : Response).

(** ** The world the service runs in *)

Record CacheEntry : Type := mkEntry {
  data : Comic;
  timestamp : Z
}.

Record World : Type := mkWorld {
  cache : gmap string CacheEntry;
  nextCachedPenalty : bool;
  now : Z;                          (* Date.now(), in ms *)
  requests : list (Z * string);     (* fetches issued so far, newest first *)
  draws : nat                       (* calls of Math.random() so far *)
}.

(** The environment outside the service: what the module-level binding
    [fetch] is, how the upstream answers a request given everything asked
    before, and the random source. *)
Record Env : Type := mkEnv {
  fetch_is_function : bool;                   (* typeof fetch === 'function' *)
  fetch_isMockFunction : bool;                (* !!(fetch && fetch._isMockFunction) *)
  upstream : list (Z * string) -> N * FetchOutcome;  (* latency, outcome *)
  random53 : nat -> Z                         (* k-th draw, as r * 2^53 *)
}.

Definition baseUrl : string := "https://xkcd.com".
Definition cacheTimeout : Z := 5 * 60 * 1000.

Definition isJestMock (env : Env) : bool := fetch_isMockFunction env.

(** ** The monad of service computations

    A computation reads and updates the [World] and either returns a value
    or throws an [Error], kept as its [message]. *)

Definition M (A : Type) : Type := World -> (string + A) * World.

Definition ret {A} (a : A) : M A := fun w => (inr a, w).

Definition throw {A} (message : string) : M A := fun w => (inl message, w).

Definition bind {A B} (m : M A) (k : A -> M B) : M B :=
  fun w =>
    match m w with
    | (inr a, w') => k a w'
    | (inl e, w') => (inl e, w')
    end.

(** [try { m } catch (error) { handler(error.message) }] *)
Definition try_catch {A} (m : M A) (handler : string -> M A) : M A :=
  fun w =>
    match m w with
    | (inr a, w') => (inr a, w')
    | (inl e, w') => handler e w'
    end.

Notation "'let*' x ':=' m 'in' k" := (bind m (fun x => k))
  (at level 10, x name, m at level 100, k at level 200).
Notation "m ';;' k" := (bind m (fun _ => k))
  (at level 100, k at level 200, right associativity).

(** *** Primitive effects *)

Definition Date_now : M Z := fun w => (inr (now w), w).

(** [await new Promise(r => setTimeout(r, ms))] *)
Definition sleep (ms : Z) : M unit :=
  fun w => (inr tt,
            {| cache := cache w; nextCachedPenalty := nextCachedPenalty w;
               now := now w + ms; requests := requests w; draws := draws w |}).

Definition cache_get (key : string) : M (option CacheEntry) :=
  fun w => (inr (cache w !! key), w).

Definition cache_set (key : string) (entry : CacheEntry) : M unit :=
  fun w => (inr tt,
            {| cache := <[key := entry]> (cache w);
               nextCachedPenalty := nextCachedPenalty w;
               now := now w; requests := requests w; draws := draws w |}).

Definition get_nextCachedPenalty : M bool :=
  fun w => (inr (nextCachedPenalty w), w).

Definition set_nextCachedPenalty (b : bool) : M unit :=
  fun w => (inr tt,
            {| cache := cache w; nextCachedPenalty := b;
               now := now w; requests := requests w; draws := draws w |}).

(** [await fetch(url)]: the request is logged with the time it is issued,
    the clock moves on by the latency, and the promise settles. *)
Definition fetch (env : Env) (url : string) : M (option Response) :=
  fun w =>
    let log := (now w, url) :: requests w in
    let w' := {| cache := cache w; nextCachedPenalty := nextCachedPenalty w;
                 now := now w + Z.of_N (fst (upstream env log));
                 requests := log; draws := draws w |} in
    match snd (upstream env log) with
    | Rejects message => (inl message, w')
    | Falsy => (inr None, w')
    | Resolves response => (inr (Some response), w')
    end.

(** [await response.json()] *)
Definition response_json (response : Response) : M RawComic :=
  match json response with
  | JsonThrows message => throw message
  | JsonBody comic => ret comic
  end.

(** [Math.floor(Math.random() * maxId)]: the draw is [r = m / 2^53] with
    [0 <= m < 2^53]. *)
Definition Math_random_times_floor (env : Env) (maxId : Z) : M Z :=
  fun w =>
    let m := random53 env (draws w) mod 2 ^ 53 in
    (inr (m * maxId / 2 ^ 53),
     {| cache := cache w; nextCachedPenalty := nextCachedPenalty w;
        now := now w; requests := requests w; draws := S (draws w) |}).

(** [`HTTP ${response?.status || 500}: ${response?.statusText || 'Internal Server Error'}`] *)
Definition http_error (response : option Response) : string :=
  let st := match response with
            | Some r => if status r =? 0 then 500 else status r
            | None => 500
            end in
  let txt := match response with
             | Some r => or_else (Some (statusText r)) "Internal Server Error"
             | None => "Internal Server Error"
             end in
  "HTTP " +:+ pretty st +:+ ": " +:+ txt.

(** [!response || !response.ok] *)
Definition not_ok (response : option Response) : bool :=
  match response with
  | Some r => negb (ok r)
  | None => true
  end.

(** [!response || response.status === 404] *)
Definition missing (response : option Response) : bool :=
  match response with
  | Some r => status r =? 404
  | None => true
  end.

(** ** The service methods *)

Definition latestKey : string := "latest".
Definition comicKey (n : Z) : string := "comic-" +:+ pretty n.
Definition latestUrl : string := baseUrl +:+ "/info.0.json".
Definition comicUrl (n : Z) : string :=
  baseUrl +:+ "/" +:+ pretty n +:+ "/info.0.json".

(** [cached && Date.now() - cached.timestamp < this.cacheTimeout] *)
Definition fresh (cached : option CacheEntry) (t : Z) : bool :=
  match cached with
  | Some e => t - timestamp e <? cacheTimeout
  | None => false
  end.

(** The cold path of [getLatest]: the [try] block and its [catch]. *)
Definition getLatest_cold (env : Env) (cacheKey : string) : M Comic :=
  try_catch
    (let* response := fetch env latestUrl in
     if not_ok response then throw (http_error response)
     else
       match response with
       | None => throw (http_error response)
       | Some r =>
           let* comic := response_json r in
           let processedComic := processComic comic in
           let* t := Date_now in
           cache_set cacheKey {| data := processedComic; timestamp := t |};;
           set_nextCachedPenalty true;;
           sleep 20;;
           ret processedComic
       end)
    (fun message => throw ("Failed to fetch latest comic: " +:+ message)).

Definition getLatest (env : Env) : M Comic :=
  if negb (fetch_is_function env) then throw "getLatest method not implemented"
  else
    let cacheKey := latestKey in
    let* cached := cache_get cacheKey in
    let* t := Date_now in
    if fresh cached t then
      match cached with
      | None => getLatest_cold env cacheKey
      | Some e =>
          let* penalty := get_nextCachedPenalty in
          (if penalty then (set_nextCachedPenalty false;; sleep 5) else ret tt);;
          ret (data e)
      end
    else getLatest_cold env cacheKey.

(** The [try] block of [getById] and its [catch]. *)
Definition getById_fetch (env : Env) (n : Z) (cacheKey : string) : M Comic :=
  try_catch
    (let* response := fetch env (comicUrl n) in
     if missing response then throw "Comic not found"
     else if not_ok response then throw (http_error response)
     else
       match response with
       | None => throw "Comic not found"
       | Some r =>
           let* comic := response_json r in
           let processedComic := processComic comic in
           let* t := Date_now in
           cache_set cacheKey {| data := processedComic; timestamp := t |};;
           ret processedComic
       end)
    (fun message => throw ("Failed to fetch comic by ID: " +:+ message)).

Definition getById (env : Env) (id : JsValue) : M Comic :=
  if negb (fetch_is_function env) || isJestMock env
  then throw "getById method not implemented"
  else if negb (Number_isInteger id) || (numberValue id <=? 0)
  then throw "Invalid comic ID"
  else
    let n := numberValue id in
    let cacheKey := comicKey n in
    let* cached := cache_get cacheKey in
    let* t := Date_now in
    if fresh cached t then
      match cached with
      | None => getById_fetch env n cacheKey
      | Some e => ret (data e)
      end
    else getById_fetch env n cacheKey.

(** The [for (let i = 0; i < 5; i++)] loop of [getRandom], with
    [attempts = 5 - i] iterations left. *)
Fixpoint getRandom_loop (env : Env) (maxId : Z) (latest : Comic)
    (attempts : nat) : M Comic :=
  match attempts with
  | O => ret latest                                     (* fallback *)
  | S attempts' =>
      let* r := Math_random_times_floor env maxId in
      let randomId := r + 1 in
      try_catch (getById env (JsInt randomId))
        (fun message =>
           if String.eqb message "Comic not found"
           then getRandom_loop env maxId latest attempts'   (* continue *)
           else throw message)
  end.

Definition getRandom (env : Env) : M Comic :=
  if negb (fetch_is_function env) || isJestMock env
  then throw "getRandom method not implemented"
  else
    try_catch
      (let* latest := getLatest env in
       let maxId := id latest in
       getRandom_loop env maxId latest 5)
      (fun message => throw ("Failed to fetch random comic: " +:+ message)).

(** *** search *)

Record Pagination : Type := mkPagination {
  page : Z;
  limit : Z;
  pages : Z;
  offset : Z
}.

Record SearchResult : Type := mkSearchResult {
  query : string;
  results : list Comic;
  total : Z;
  pagination : Pagination
}.

(** [Math.ceil(a / b)] for integers [a] and [b <> 0]. *)
Definition Math_ceil_div (a b : Z) : Z := - ((- a) / b).

(** [Array.prototype.slice(start, end)]: a negative index counts from the
    end, and both are clamped to the array. *)
Definition slice_index (len k : Z) : Z :=
  if k <? 0 then Z.max (len + k) 0 else Z.min k len.

Definition slice {A} (l : list A) (start end_ : Z) : list A :=
  let len := Z.of_nat (length l) in
  let from := slice_index len start in
  let to := slice_index len end_ in
  take (Z.to_nat (to - from)) (drop (Z.to_nat from) l).

(** Does comic [c] match the normalised query [q]? *)
Definition matches (q : string) (c : Comic) : bool :=
  let hay := toLowerCase (title c +:+ " " +:+ or_else (Some (transcript c)) "") in
  includes hay q.

(** The scan [for (let id = maxId; id >= start; id--)], with [count]
    iterations left and [id] the next one to visit; [results] is the
    array being filled. *)
Fixpoint search_scan (env : Env) (q : string) (count : nat) (id : Z)
    (results : list Comic) : M (list Comic) :=
  match count with
  | O => ret results
  | S count' =>
      let* results' :=
        try_catch
          (let* c := getById env (JsInt id) in
           if matches q c then ret (results ++ [c])%list else ret results)
          (fun message =>
             if String.eqb message "Comic not found"
             then ret results                       (* continue *)
             else ret results)                      (* falls out of the catch *)
      in
      search_scan env q count' (id - 1) results'
  end.

(** The page of the answer, from the filled [results] array.  The product
    [(safePage - 1) * safeLimit] is the exact one; the code multiplies
    doubles, which gives the same number while the product is below 2^53
    and the nearest double beyond. *)
Definition paginate (query : string) (page limit : JsValue)
    (results : list Comic) : SearchResult :=
  let safePage :=
    if Number_isInteger page && (numberValue page >? 0)
    then numberValue page else 1 in
  let safeLimit :=
    if Number_isInteger limit && (numberValue limit >? 0)
    then Z.min (numberValue limit) 50 else 10 in
  let offset := (safePage - 1) * safeLimit in
  let pages := Z.max 1 (Math_ceil_div (Z.of_nat (length results)) safeLimit) in
  {| query := trim query;
     results := slice results offset (offset + safeLimit);
     total := Z.of_nat (length results);
     pagination := {| page := safePage; limit := safeLimit;
                      pages := pages; offset := offset |} |}.

(** The window [start = Math.max(1, maxId - 30)] and the number of ids
    from [maxId] down to [start]. *)
Definition scan_start (maxId : Z) : Z := Z.max 1 (maxId - 30).
Definition scan_count (maxId : Z) : nat := Z.to_nat (maxId - scan_start maxId + 1).

(** A default parameter [p = d] takes [d] exactly when the argument is
    [undefined]. *)
Definition default_param (v d : JsValue) : JsValue :=
  match v with
  | JsUndefined => d
  | _ => v
  end.

(** [query.trim().length < 1 || query.trim().length > 100] *)
Definition bad_length (s : string) : bool :=
  let n := Z.of_nat (String.length (trim s)) in
  (n <? 1) || (n >? 100).

Definition search (env : Env) (query page limit : JsValue) : M SearchResult :=
  let page := default_param page (JsInt 1) in
  let limit := default_param limit (JsInt 10) in
  if negb (fetch_is_function env) || isJestMock env
  then throw "search method not implemented"
  else
    match query with
    | JsString query =>
        if bad_length query then throw "Invalid search query"
        else
          let q := toLowerCase (trim query) in
          let* latest := getLatest env in
          let maxId := id latest in
          let* results := search_scan env q (scan_count maxId) maxId [] in
          ret (paginate query page limit results)
    | _ => throw "Invalid search query"            (* typeof query !== 'string' *)
    end.

(** ** Vocabulary for the statements

    The outcome of the one request a call may issue, read off the
    upstream oracle. *)

(** The world right after [await fetch(url)] settles. *)
Definition after_fetch (env : Env) (url : string) (w : World) : World :=
  let log := (now w, url) :: requests w in
  {| cache := cache w; nextCachedPenalty := nextCachedPenalty w;
     now := now w + Z.of_N (fst (upstream env log));
     requests := log; draws := draws w |}.

(** The upstream's answer to a request for [url] made in world [w]. *)
Definition answer (env : Env) (url : string) (w : World) : FetchOutcome :=
  snd (upstream env ((now w, url) :: requests w)).

(** A comic is delivered: the response is there, is not a 404, is [ok],
    and its body parses. *)
Definition delivers_comic (o : FetchOutcome) : option RawComic :=
  match o with
  | Resolves r =>
      if status r =? 404 then None
      else if ok r then
        match json r with JsonBody c => Some c | JsonThrows _ => None end
      else None
  | _ => None
  end.

(** [getLatest] does not look at the status beyond [ok]. *)
Definition delivers_latest (o : FetchOutcome) : option RawComic :=
  match o with
  | Resolves r =>
      if ok r then
        match json r with JsonBody c => Some c | JsonThrows _ => None end
      else None
  | _ => None
  end.

(** The message thrown inside the [try] block of [getById]. *)
Definition getById_cause (o : FetchOutcome) : string :=
  match o with
  | Rejects message => message
  | Falsy => "Comic not found"
  | Resolves r =>
      if status r =? 404 then "Comic not found"
      else if ok r then
        match json r with JsonThrows message => message | JsonBody _ => "" end
      else http_error (Some r)
  end.

(** The message thrown inside the [try] block of [getLatest]. *)
Definition getLatest_cause (o : FetchOutcome) : string :=
  match o with
  | Rejects message => message
  | Falsy => http_error None
  | Resolves r =>
      if ok r then
        match json r with JsonThrows message => message | JsonBody _ => "" end
      else http_error (Some r)
  end.

(** ** Sample upstreams

    An upstream given by a routing table from URLs to outcomes; a URL that
    is not in the table is answered with 404.  Every answer takes 30 ms. *)

Definition http_ok (comic : RawComic) : FetchOutcome :=
  Resolves {| status := 200; statusText := "OK"; ok := true;
              json := JsonBody comic |}.

Definition http_fail (code : Z) (text : string) : FetchOutcome :=
  Resolves {| status := code; statusText := text; ok := false;
              json := JsonThrows "Unexpected token < in JSON at position 0" |}.

Fixpoint route (table : list (string * FetchOutcome)) (url : string)
    : FetchOutcome :=
  match table with
  | [] => http_fail 404 "Not Found"
  | (u, o) :: rest => if String.eqb u url then o else route rest url
  end.

Definition routed (table : list (string * FetchOutcome))
    (log : list (Z * string)) : N * FetchOutcome :=
  match log with
  | [] => (0%N, Falsy)
  | (_, url) :: _ => (30%N, route table url)
  end.

(** The real [node-fetch] in front of a routing table; the random source
    always draws [r = 1/2]. *)
Definition node_fetch (table : list (string * FetchOutcome)) : Env :=
  {| fetch_is_function := true;
     fetch_isMockFunction := false;
     upstream := routed table;
     random53 := fun _ => 2 ^ 52 |}.

Definition sample_comic (n : Z) (t : string) : RawComic :=
  {| num := n; raw_title := t;
     raw_img := "https://imgs.xkcd.com/comics/sample.png";
     raw_alt := "alt text"; raw_transcript := None;
     raw_year := "2009"; raw_month := "7"; raw_day := "24";
     raw_safe_title := t |}.

(** The same with the random source always drawing [draw / 2^53]. *)
Definition node_fetch_drawing (table : list (string * FetchOutcome)) (draw : Z)
    : Env :=
  {| fetch_is_function := true;
     fetch_isMockFunction := false;
     upstream := routed table;
     random53 := fun _ => draw |}.

(** [fetch] replaced by a Jest mock function that answers from a table. *)
Definition jest_mock (table : list (string * FetchOutcome)) : Env :=
  {| fetch_is_function := true;
     fetch_isMockFunction := true;
     upstream := routed table;
     random53 := fun _ => 2 ^ 52 |}.

(** The same environment with the mock flag of [fetch] cleared. *)
Definition unmocked (env : Env) : Env :=
  {| fetch_is_function := fetch_is_function env;
     fetch_isMockFunction := false;
     upstream := upstream env;
     random53 := random53 env |}.

(** An archive whose latest comic is number 3 and where number 2 is a gap. *)
Definition archive : list (string * FetchOutcome) :=
  [ (latestUrl, http_ok (sample_comic 3 "Python"));
    (comicUrl 3, http_ok (sample_comic 3 "Python"));
    (comicUrl 1, http_ok (sample_comic 1 "Barrel - Part 1")) ].

(** The same archive while the upstream serves number 2 with a 500. *)
Definition archive_with_outage : list (string * FetchOutcome) :=
  [ (latestUrl, http_ok (sample_comic 3 "Python"));
    (comicUrl 3, http_ok (sample_comic 3 "Python"));
    (comicUrl 2, http_fail 500 "Internal Server Error");
    (comicUrl 1, http_ok (sample_comic 1 "Barrel - Part 1")) ].

(** A freshly constructed service at time [t]. *)
Definition boot (t : Z) : World :=
  {| cache := ∅; nextCachedPenalty := false; now := t;
     requests := []; draws := 0 |}.

(** The world after some time has passed with nothing else happening. *)
Definition later (ms : Z) (w : World) : World :=
  {| cache := cache w; nextCachedPenalty := nextCachedPenalty w;
     now := now w + ms; requests := requests w; draws := draws w |}.

(** [s.repeat(n)] *)
Fixpoint String_repeat (s : string) (n : nat) : string :=
  match n with
  | O => ""
  | S n' => s +:+ String_repeat s n'
  end.

(** ** Coherence of the archive

    The upstream is coherent when the document it serves under the URL of
    comic [n] is numbered [n]; the cache is coherent when the entry under
    the key of comic [n] holds a comic with id [n]. *)

Definition upstream_coherent (env : Env) : Prop :=
  ∀ (log : list (Z * string)) (t n : Z) (c : RawComic),
    delivers_comic (snd (upstream env ((t, comicUrl n) :: log))) = Some c →
    num c = n.

Definition cache_coherent (w : World) : Prop :=
  ∀ (n : Z) (e : CacheEntry),
    cache w !! comicKey n = Some e → id (data e) = n.

(** Comics listed with strictly decreasing ids. *)
Definition most_recent_first (l : list Comic) : Prop :=
  StronglySorted (fun a b => id b < id a) l.

(** A routing table is coherent when whatever it serves under the URL of
    comic [n] is numbered [n]. *)
Definition table_coherent (table : list (string * FetchOutcome)) : Prop :=
  Forall (fun entry =>
            ∀ (c : RawComic) (n : Z),
              delivers_comic (snd entry) = Some c →
              fst entry = comicUrl n → num c = n) table.

(** ** The HTTP layer: src/middleware/errorHandler.js

    The error handler reads five properties of the error it is given and
    the request id set by the logging middleware; it answers with a status
    code and a JSON report.  Its logging call has no effect on the answer
    and is left out; the ISO time stamp of a report is kept as the clock
    reading it is printed from. *)

Record JsError : Type := mkJsError {
  err_name : string;
  err_message : string;
  err_details : option string;
  err_isOperational : bool;
  err_statusCode : option Z
}.

(** [new Error(message)] as thrown by the service. *)
Definition plain_error (message : string) : JsError :=
  {| err_name := "Error"; err_message := message; err_details := None;
     err_isOperational := false; err_statusCode := None |}.

(** The JSON object built by the error handler; a field that is not set
    is [None], and [details] and [requestId] may be set to [null]. *)
Record ErrorReport : Type := mkReport {
  report_error : string;
  report_message : option string;
  report_details : option (option string);
  report_timestamp : option Z;
  report_requestId : option string
}.

Inductive Body : Type :=
  | ComicBody (comic : Comic)
  | SearchBody (result : SearchResult)
  | ErrorBody (error : string)
  | ReportBody (report : ErrorReport).

Record Reply : Type := mkReply {
  reply_status : Z;
  reply_body : Body
}.

(** [s || null] on an optional string. *)
Definition or_null (s : option string) : option string :=
  match s with
  | Some (String c r) => Some (String c r)
  | _ => None
  end.

(** Truthiness of [err.statusCode]. *)
Definition truthy_code (code : option Z) : bool :=
  match code with
  | Some c => negb (c =? 0)
  | None => false
  end.

Definition errorHandler (err : JsError) (requestId : option string)
    (clock : Z) : Reply :=
  let '(statusCode, response) :=
    if String.eqb (err_name err) "ValidationError" then
      (400, {| report_error := "Validation Error";
               report_message := Some (err_message err);
               report_details := Some (or_null (err_details err));
               report_timestamp := None; report_requestId := None |})
    else if String.eqb (err_message err) "Comic not found" then
      (404, {| report_error := "Comic not found";
               report_message := Some "The requested comic does not exist";
               report_details := None;
               report_timestamp := None; report_requestId := None |})
    else if String.eqb (err_message err) "Invalid comic ID" then
      (400, {| report_error := "Invalid comic ID";
               report_message := Some "Comic ID must be a positive integer";
               report_details := None;
               report_timestamp := None; report_requestId := None |})
    else if err_isOperational err && truthy_code (err_statusCode err) then
      (default 0 (err_statusCode err),
       {| report_error := err_message err;
          report_message := None;
          report_details := None;
          report_timestamp := Some clock; report_requestId := None |})
    else
      (500, {| report_error := "Internal Server Error";
               report_message := Some "Something went wrong on our end";
               report_details := None;
               report_timestamp := None; report_requestId := None |})
  in
  {| reply_status := statusCode;
     reply_body :=
       ReportBody {| report_error := report_error response;
                     report_message := report_message response;
                     report_details := report_details response;
                     report_timestamp := report_timestamp response;
                     report_requestId := or_null requestId |} |}.

(** ** The HTTP layer: the handlers of src/routes/comics.js

    A handler runs a service method and answers; [res.json(x)] answers
    with status 200, and [next(err)] hands the error to [errorHandler],
    the only error middleware registered after the router. *)

Definition isDigit (c : ascii) : bool :=
  let n := N_of_ascii c in ((48 <=? n) && (n <=? 57))%N.

(** The value of the longest prefix of decimal digits, if there is one. *)
Fixpoint digits_prefix (s : string) (acc : option Z) : option Z :=
  match s with
  | EmptyString => acc
  | String c r =>
      if isDigit c
      then digits_prefix r
             (Some (10 * default 0 acc + (Z.of_N (N_of_ascii c) - 48)))
      else acc
  end.

(** [parseInt(s, 10)]: leading white space is skipped, one sign is read,
    then the longest run of digits; with no digit the result is [NaN].
    The result is the exact integer of the digits; [parseInt] returns the
    same number while it is below 2^53 and the nearest double beyond. *)
Definition parseInt10 (s : string) : JsValue :=
  let s := trimStart s in
  let '(sign, rest) :=
    match s with
    | String "-" r => (-1, r)
    | String "+" r => (1, r)
    | _ => (1, s)
    end in
  match digits_prefix rest None with
  | None => JsNonInt
  | Some v => JsInt (sign * v)
  end.

(** [next(err)] *)
Definition next (message : string) (requestId : option string) (w : World)
    : Reply :=
  errorHandler (plain_error message) requestId (now w).

Definition res_json (body : Body) : Reply :=
  {| reply_status := 200; reply_body := body |}.

(** [router.get('/latest', ...)] *)
Definition latestRoute (env : Env) (requestId : option string) (w : World)
    : Reply * World :=
  match getLatest env w with
  | (inr comic, w') => (res_json (ComicBody comic), w')
  | (inl message, w') => (next message requestId w', w')
  end.

(** [router.get('/random', ...)] *)
Definition randomRoute (env : Env) (requestId : option string) (w : World)
    : Reply * World :=
  match getRandom env w with
  | (inr comic, w') => (res_json (ComicBody comic), w')
  | (inl message, w') => (next message requestId w', w')
  end.

(** The handler of [router.get('/:id', ...)], given [req.params.id]. *)
Definition idRoute (env : Env) (param : string) (requestId : option string)
    (w : World) : Reply * World :=
  let id := parseInt10 param in
  match getById env id w with
  | (inr comic, w') => (res_json (ComicBody comic), w')
  | (inl message, w') =>
      if includes message "Comic not found" then
        ({| reply_status := 404; reply_body := ErrorBody "Comic not found" |}, w')
      else if includes message "Invalid comic ID" then
        ({| reply_status := 400;
            reply_body := ErrorBody "Comic ID must be a positive integer" |}, w')
      else (next message requestId w', w')
  end.

(** [req.query.page ? parseInt(req.query.page, 10) : d] for a query
    parameter that is absent or a string. *)
Definition query_int (v : option string) (d : Z) : JsValue :=
  match v with
  | Some (String c r) => parseInt10 (String c r)
  | _ => JsInt d
  end.

(** The handler of [router.get('/search', ...)], given [req.query]. *)
Definition searchRoute (env : Env) (q : JsValue) (page limit : option string)
    (requestId : option string) (w : World) : Reply * World :=
  let page := query_int page 1 in
  let limit := query_int limit 10 in
  match search env q page limit w with
  | (inr result, w') => (res_json (SearchBody result), w')
  | (inl message, w') => (next message requestId w', w')
  end.

(** The answer of [errorHandler] to an error it does not recognise. *)
Definition internal_server_error (requestId : option string) : Reply :=
  {| reply_status := 500;
     reply_body :=
       ReportBody {| report_error := "Internal Server Error";
                     report_message := Some "Something went wrong on our end";
                     report_details := None;
                     report_timestamp := None;
                     report_requestId := or_null requestId |} |}.

(** The answers of the id route to a comic that is missing and to an id
    that is invalid. *)
Definition not_found_reply : Reply :=
  {| reply_status := 404; reply_body := ErrorBody "Comic not found" |}.

Definition bad_id_reply : Reply :=
  {| reply_status := 400;
     reply_body := ErrorBody "Comic ID must be a positive integer" |}.

(** ** The request counters of src/app.js *)

Record Stats : Type := mkStats {
  totalRequests : Z;
  endpointStats : gmap string Z;
  startTime : Z
}.

(** [x || 0] on a counter that may be missing. *)
Definition or_zero (x : option Z) : Z :=
  match x with
  | Some n => n
  | None => 0
  end.

(** The stats middleware, for a request with [req.method] and [req.path]. *)
Definition statsMiddleware (method path : string) (stats : Stats) : Stats :=
  let endpoint := method +:+ " " +:+ path in
  {| totalRequests := totalRequests stats + 1;
     endpointStats :=
       <[endpoint := or_zero (endpointStats stats !! endpoint) + 1]>
         (endpointStats stats);
     startTime := startTime stats |}.

(** The counters when the application starts at time [t]. *)
Definition initial_stats (t : Z) : Stats :=
  {| totalRequests := 0; endpointStats := ∅; startTime := t |}.

(** The counters after a sequence of requests, oldest first. *)
Definition serve (reqs : list (string * string)) (stats : Stats) : Stats :=
  foldl (fun st r => statsMiddleware (fst r) (snd r) st) stats reqs.

(** The sum of all per-endpoint counters. *)
Definition counted (stats : Stats) : Z :=
  map_fold (fun _ n acc => n + acc) 0 (endpointStats stats).

(** How often an endpoint occurs in a sequence of requests. *)
Definition occurrences (endpoint : string) (reqs : list (string * string)) : Z :=
  Z.of_nat (length (filter (fun r => fst r +:+ " " +:+ snd r = endpoint) reqs)).

(** ** Paging through a result

    [page_of s l all k]: the comics on page [k + 1] of the matches [all],
    as [search] cuts them for the limit argument [l]. *)
Definition page_of (s : string) (l : JsValue) (all : list Comic) (k : nat)
    : list Comic :=
  results (paginate s (JsInt (Z.of_nat k + 1)) (default_param l (JsInt 10)) all).

(** ** The limit in the words of the specification

    The specification speaks of the limit as clamped to [1, 50].  This is
    that reading, to be compared with what [paginate] computes. *)
Definition clamped_limit (n : Z) : Z := Z.max 1 (Z.min n 50).

(** * Properties *)

(** Unfolding of the monad and of the primitive effects. *)
Ltac unfold_monad :=
  unfold bind, try_catch, ret, throw, Date_now, sleep, cache_get, cache_set,
    get_nextCachedPenalty, set_nextCachedPenalty, fetch, response_json,
    Math_random_times_floor in *.

(** ** Cache keys *)

Lemma comicKey_not_latest (n : Z) : comicKey n ≠ latestKey.
Proof. unfold comicKey, latestKey. simpl. discriminate. Qed.

Lemma comicKey_inj (n m : Z) : comicKey n = comicKey m → n = m.
Proof.
  unfold comicKey. intros H.
  apply (inj (String.app "comic-")) in H.
  by apply (inj pretty) in H.
Qed.

(** ** What a call does, path by path *)

Section Paths.
Variable env : Env.
Hypothesis fetch_real : fetch_is_function env = true.
Hypothesis fetch_not_mock : isJestMock env = false.

(** A valid id either hits the cache or goes to the upstream. *)
Lemma getById_valid (n : Z) (w : World) :
  0 < n →
  getById env (JsInt n) w =
    match cache w !! comicKey n with
    | Some e =>
        if now w - timestamp e <? cacheTimeout then (inr (data e), w)
        else getById_fetch env n (comicKey n) w
    | None => getById_fetch env n (comicKey n) w
    end.
Proof.
  intros Hn. unfold getById. rewrite fetch_real, fetch_not_mock. simpl.
  destruct (n <=? 0) eqn:E; [lia|].
  unfold_monad. unfold fresh.
  destruct (cache w !! comicKey n) as [e|]; [|done].
  by destruct (now w - timestamp e <? cacheTimeout).
Qed.

Lemma getById_invalid (i : JsValue) (w : World) :
  ¬ (∃ n, i = JsInt n ∧ 0 < n) →
  getById env i w = (inl "Invalid comic ID", w).
Proof.
  intros Hbad. unfold getById. rewrite fetch_real, fetch_not_mock. simpl.
  destruct i as [|n| | |]; simpl; try done.
  destruct (n <=? 0) eqn:E; [done|].
  exfalso. apply Hbad. exists n. split; [done|lia].
Qed.

Lemma getLatest_paths (w : World) :
  getLatest env w =
    match cache w !! latestKey with
    | Some e =>
        if now w - timestamp e <? cacheTimeout then
          (inr (data e),
           if nextCachedPenalty w then
             {| cache := cache w; nextCachedPenalty := false;
                now := now w + 5; requests := requests w;
                draws := draws w |}
           else w)
        else getLatest_cold env latestKey w
    | None => getLatest_cold env latestKey w
    end.
Proof.
  unfold getLatest. rewrite fetch_real. simpl.
  unfold_monad. unfold fresh.
  destruct (cache w !! latestKey) as [e|]; [|done].
  destruct (now w - timestamp e <? cacheTimeout); [|done].
  by destruct (nextCachedPenalty w).
Qed.
End Paths.

Lemma getById_fetch_spec (env : Env) (n : Z) (key : string) (w : World) :
  getById_fetch env n key w =
    let w1 := after_fetch env (comicUrl n) w in
    match delivers_comic (answer env (comicUrl n) w) with
    | Some c =>
        (inr (processComic c),
         {| cache := <[key := {| data := processComic c; timestamp := now w1 |}]>
                       (cache w1);
            nextCachedPenalty := nextCachedPenalty w1; now := now w1;
            requests := requests w1; draws := draws w1 |})
    | None =>
        (inl ("Failed to fetch comic by ID: "
              +:+ getById_cause (answer env (comicUrl n) w)), w1)
    end.
Proof.
  unfold getById_fetch, delivers_comic, getById_cause, answer, after_fetch.
  unfold_monad. simpl.
  destruct (snd (upstream env ((now w, comicUrl n) :: requests w)))
    as [m| |r]; simpl; try done.
  destruct (status r =? 404); simpl; [done|].
  destruct (ok r); simpl; [|done].
  by destruct (json r).
Qed.

Lemma getLatest_cold_spec (env : Env) (key : string) (w : World) :
  getLatest_cold env key w =
    let w1 := after_fetch env latestUrl w in
    match delivers_latest (answer env latestUrl w) with
    | Some c =>
        (inr (processComic c),
         {| cache := <[key := {| data := processComic c; timestamp := now w1 |}]>
                       (cache w1);
            nextCachedPenalty := true; now := now w1 + 20;
            requests := requests w1; draws := draws w1 |})
    | None =>
        (inl ("Failed to fetch latest comic: "
              +:+ getLatest_cause (answer env latestUrl w)), w1)
    end.
Proof.
  unfold getLatest_cold, delivers_latest, getLatest_cause, answer, after_fetch.
  unfold_monad. simpl.
  destruct (snd (upstream env ((now w, latestUrl) :: requests w)))
    as [m| |r]; simpl; try done.
  destruct (ok r); simpl; [|done].
  by destruct (json r).
Qed.

(** ** Invalid ids *)

(** C5.  An id that is not a positive integer (an integer [<= 0], a
    non-integer Number, or no Number at all) makes [getById] throw
    [Invalid comic ID]; the world is returned as it was, so no request was
    issued and the cache was not touched. *)
Theorem getById_rejects_invalid_id (env : Env) (i : JsValue) (w : World) :
  fetch_is_function env = true →
  isJestMock env = false →
  ¬ (∃ n, i = JsInt n ∧ 0 < n) →
  getById env i w = (inl "Invalid comic ID", w).
Proof. intros Hf Hm Hbad. by apply getById_invalid. Qed.

Lemma getById_rejects_invalid_id_witness :
  getById (node_fetch archive) (JsInt 0) (boot 1000)
    = (inl "Invalid comic ID", boot 1000)
  ∧ getById (node_fetch archive) JsNonInt (boot 1000)
    = (inl "Invalid comic ID", boot 1000).
Proof.
  split.
  - apply (getById_rejects_invalid_id (node_fetch archive) (JsInt 0));
      [reflexivity | reflexivity |].
    intros (n & Hn & Hpos). injection Hn as <-. lia.
  - apply (getById_rejects_invalid_id (node_fetch archive) JsNonInt);
      [reflexivity | reflexivity |].
    intros (n & Hn & _). discriminate.
Defined.

(** ** The cache changes only with a delivered comic *)

Lemma getById_cache_change (env : Env) (i : JsValue) (w w' : World)
    (r : string + Comic) :
  getById env i w = (r, w') →
  cache w' = cache w
  ∨ (∃ v, r = inr v) ∧ length (requests w') = S (length (requests w)).
Proof.
  unfold getById.
  destruct (negb (fetch_is_function env) || isJestMock env);
    [intros [= <- <-]; by left|].
  destruct (negb (Number_isInteger i) || (numberValue i <=? 0));
    [intros [= <- <-]; by left|].
  assert (Hfetch : getById_fetch env (numberValue i) (comicKey (numberValue i)) w
                   = (r, w') →
                   cache w' = cache w
                   ∨ (∃ v, r = inr v)
                     ∧ length (requests w') = S (length (requests w))).
  { rewrite getById_fetch_spec. simpl.
    destruct (delivers_comic _); intros [= <- <-]; simpl; eauto. }
  unfold_monad.
  destruct (fresh (cache w !! comicKey (numberValue i)) (now w)); [|done].
  destruct (cache w !! comicKey (numberValue i)); [|done].
  intros [= <- <-]. by left.
Qed.

Lemma getLatest_cache_change (env : Env) (w w' : World) (r : string + Comic) :
  getLatest env w = (r, w') →
  cache w' = cache w
  ∨ (∃ v, r = inr v) ∧ length (requests w') = S (length (requests w)).
Proof.
  unfold getLatest.
  destruct (negb (fetch_is_function env)); [intros [= <- <-]; by left|].
  assert (Hcold : getLatest_cold env latestKey w = (r, w') →
                  cache w' = cache w
                  ∨ (∃ v, r = inr v)
                    ∧ length (requests w') = S (length (requests w))).
  { rewrite getLatest_cold_spec. simpl.
    destruct (delivers_latest _); intros [= <- <-]; simpl; eauto. }
  unfold_monad.
  destruct (fresh (cache w !! latestKey) (now w)); [|done].
  destruct (cache w !! latestKey); [|done].
  destruct (nextCachedPenalty w); intros [= <- <-]; by left.
Qed.

(** C9.  Whatever [getLatest()] or [getById(id)] was called with, a call
    that fails (the method guard, an invalid id, an upstream error, a
    missing comic) leaves the cache exactly as it was; and a call after
    which the cache differs has returned a comic and issued one request. *)
Theorem cache_untouched_on_failure (env : Env) (w w' : World)
    (r : string + Comic) :
  getLatest env w = (r, w') ∨ (∃ i, getById env i w = (r, w')) →
  ((∃ message, r = inl message) → cache w' = cache w)
  ∧ (cache w' ≠ cache w →
     (∃ v, r = inr v) ∧ length (requests w') = S (length (requests w))).
Proof.
  intros Hcall.
  assert (Hchange : cache w' = cache w
                    ∨ (∃ v, r = inr v)
                      ∧ length (requests w') = S (length (requests w))).
  { destruct Hcall as [H|[i H]];
      eauto using getLatest_cache_change, getById_cache_change. }
  split.
  - intros [message ->]. destruct Hchange as [|[[v Hv] _]]; [done|discriminate].
  - intros Hne. destruct Hchange as [|]; [contradiction|done].
Qed.

Lemma cache_untouched_on_failure_witness :
  (∃ message,
     fst (getById (node_fetch archive) (JsInt 2) (boot 1000)) = inl message)
  ∧ cache (snd (getById (node_fetch archive) (JsInt 2) (boot 1000)))
    = cache (boot 1000).
Proof.
  assert (Hfails : ∃ message,
             fst (getById (node_fetch archive) (JsInt 2) (boot 1000))
             = inl message).
  { eexists. vm_compute. reflexivity. }
  split; [exact Hfails|].
  apply (cache_untouched_on_failure (node_fetch archive) (boot 1000) _
           (fst (getById (node_fetch archive) (JsInt 2) (boot 1000))));
    [|exact Hfails].
  right. exists (JsInt 2). apply surjective_pairing.
Defined.

(** ** Cache hits *)

(** A successful [getById] has passed both guards. *)
Lemma getById_success_valid (env : Env) (i : JsValue) (w w1 : World) (v : Comic) :
  getById env i w = (inr v, w1) →
  fetch_is_function env = true ∧ isJestMock env = false
  ∧ ∃ n, i = JsInt n ∧ 0 < n.
Proof.
  unfold getById.
  destruct (fetch_is_function env), (isJestMock env); simpl; try done.
  destruct i as [|n| | |]; simpl; try done.
  destruct (n <=? 0) eqn:E; [done|].
  intros _. repeat split. exists n. split; [done|lia].
Qed.

(** A fresh entry under the comic's key is what [getById] returns. *)
Lemma getById_hit (env : Env) (n : Z) (w : World) (e : CacheEntry) :
  fetch_is_function env = true →
  isJestMock env = false →
  0 < n →
  cache w !! comicKey n = Some e →
  now w - timestamp e < cacheTimeout →
  getById env (JsInt n) w = (inr (data e), w).
Proof.
  intros Hf Hm Hn Hlook Hfresh.
  rewrite getById_valid by done. rewrite Hlook.
  destruct (now w - timestamp e <? cacheTimeout) eqn:E; [done|lia].
Qed.

(** After a successful [getById] the cache holds the returned comic. *)
Lemma getById_success_cached (env : Env) (n : Z) (w w1 : World) (v : Comic) :
  getById env (JsInt n) w = (inr v, w1) →
  ∃ e, cache w1 !! comicKey n = Some e ∧ data e = v.
Proof.
  intros Hcall.
  destruct (getById_success_valid _ _ _ _ _ Hcall) as (Hf & Hm & k & [= <-] & Hn).
  rewrite getById_valid in Hcall by done.
  assert (Hfetch : getById_fetch env n (comicKey n) w = (inr v, w1) →
                   ∃ e, cache w1 !! comicKey n = Some e ∧ data e = v).
  { rewrite getById_fetch_spec. simpl.
    destruct (delivers_comic _) as [c|]; [|done].
    intros [= <- <-]. simpl. eexists. by rewrite lookup_insert_eq. }
  destruct (cache w !! comicKey n) as [e|] eqn:Hlook; [|auto].
  destruct (now w - timestamp e <? cacheTimeout); [|auto].
  injection Hcall as <- <-. eauto.
Qed.

(** C1.  When [getById(id)] has returned comic [v], the cache holds an entry
    for the id with [v] as its data; and in every later world that still
    holds this entry and whose clock is within the time-out of the entry's
    timestamp, [getById(id)] returns [v] again and hands the world back
    unchanged: nothing is added to the request log. *)
Theorem getById_again_within_ttl (env : Env) (i : JsValue) (w w1 : World)
    (v : Comic) :
  getById env i w = (inr v, w1) →
  ∃ e, cache w1 !! comicKey (numberValue i) = Some e
       ∧ data e = v
       ∧ ∀ w2, cache w2 !! comicKey (numberValue i) = Some e →
               now w2 - timestamp e < cacheTimeout →
               getById env i w2 = (inr v, w2)
               ∧ requests (snd (getById env i w2)) = requests w2.
Proof.
  intros Hcall.
  destruct (getById_success_valid _ _ _ _ _ Hcall) as (Hf & Hm & n & -> & Hn).
  destruct (getById_success_cached _ _ _ _ _ Hcall) as (e & Hlook & <-).
  exists e. simpl. split; [done|]. split; [done|].
  intros w2 Hlook2 Hfresh.
  by rewrite (getById_hit env n w2 e).
Qed.

Lemma getById_again_within_ttl_witness :
  let w1 := snd (getById (node_fetch archive) (JsInt 1) (boot 1000)) in
  let w2 := later 299999 w1 in
  getById (node_fetch archive) (JsInt 1) w2
    = (inr (processComic (sample_comic 1 "Barrel - Part 1")), w2)
  ∧ requests w2 = [(1000, comicUrl 1)].
Proof.
  intros w1 w2.
  destruct (getById_again_within_ttl (node_fetch archive) (JsInt 1) (boot 1000)
              w1 (processComic (sample_comic 1 "Barrel - Part 1")))
    as (e & Hentry & _ & Hagain); [by vm_compute|].
  assert (He : e = {| data := processComic (sample_comic 1 "Barrel - Part 1");
                      timestamp := 1030 |}).
  { vm_compute in Hentry. by injection Hentry as <-. }
  subst e.
  destruct (Hagain w2) as (Hcall & _); [by vm_compute | by vm_compute |].
  split; [exact Hcall | reflexivity].
Defined.

(** ** Expiry of the latest comic *)

(** C8.  With an entry under ["latest"] that is as old as the time-out or
    older, [getLatest()] takes the cold path: it issues one request for the
    latest comic (the log grows by exactly that request) and does not
    answer from the cache.  When the upstream delivers, the comic built
    from the new body is returned and the entry is overwritten with it
    under a timestamp later than the old one; when it does not, the call
    throws and the stale comic is not returned. *)
Theorem getLatest_refetches_after_ttl (env : Env) (w : World) (e : CacheEntry) :
  fetch_is_function env = true →
  cache w !! latestKey = Some e →
  cacheTimeout ≤ now w - timestamp e →
  requests (snd (getLatest env w)) = (now w, latestUrl) :: requests w
  ∧ match delivers_latest (answer env latestUrl w) with
    | Some c =>
        fst (getLatest env w) = inr (processComic c)
        ∧ cache (snd (getLatest env w))
          = <[latestKey := {| data := processComic c;
                              timestamp := now (after_fetch env latestUrl w) |}]>
              (cache w)
        ∧ timestamp e < now (after_fetch env latestUrl w)
    | None =>
        fst (getLatest env w)
        = inl ("Failed to fetch latest comic: "
               +:+ getLatest_cause (answer env latestUrl w))
        ∧ cache (snd (getLatest env w)) = cache w
    end.
Proof.
  intros Hf Hlook Hold.
  rewrite getLatest_paths by done. rewrite Hlook.
  destruct (now w - timestamp e <? cacheTimeout) eqn:E; [lia|].
  rewrite getLatest_cold_spec. simpl.
  destruct (delivers_latest _) as [c|]; simpl; [|done].
  repeat split. unfold cacheTimeout in Hold. lia.
Qed.

Lemma getLatest_refetches_after_ttl_witness :
  let w := later 300000 (snd (getLatest (node_fetch archive) (boot 1000))) in
  requests (snd (getLatest (node_fetch archive) w))
    = [(301050, latestUrl); (1000, latestUrl)]
  ∧ fst (getLatest (node_fetch archive) w)
    = inr (processComic (sample_comic 3 "Python"))
  ∧ cache (snd (getLatest (node_fetch archive) w)) !! latestKey
    = Some {| data := processComic (sample_comic 3 "Python");
              timestamp := 301080 |}.
Proof.
  intros w.
  destruct (getLatest_refetches_after_ttl (node_fetch archive) w
              {| data := processComic (sample_comic 3 "Python");
                 timestamp := 1030 |})
    as (Hlog & Hdelivered); [reflexivity | reflexivity | vm_compute; discriminate |].
  change (delivers_latest (answer (node_fetch archive) latestUrl w))
    with (Some (sample_comic 3 "Python")) in Hdelivered.
  destruct Hdelivered as (Hret & Hcache & _).
  split; [exact Hlog|]. split; [exact Hret|].
  rewrite Hcache. apply lookup_insert_eq.
Defined.

(** ** Missing comics *)

(** The message of a missing comic is wrapped by the [catch] of [getById]
    itself. *)
Lemma getById_missing (env : Env) (n : Z) (w : World) :
  fetch_is_function env = true →
  isJestMock env = false →
  0 < n →
  fresh (cache w !! comicKey n) (now w) = false →
  missing (match answer env (comicUrl n) w with
           | Resolves r => Some r
           | _ => None
           end) = true →
  (∀ message, answer env (comicUrl n) w ≠ Rejects message) →
  getById env (JsInt n) w
  = (inl "Failed to fetch comic by ID: Comic not found",
     after_fetch env (comicUrl n) w).
Proof.
  intros Hf Hm Hn Hstale Hmiss Hsettled.
  rewrite getById_valid by done.
  assert (Hfetch : getById_fetch env n (comicKey n) w
                   = (inl "Failed to fetch comic by ID: Comic not found",
                      after_fetch env (comicUrl n) w)).
  { rewrite getById_fetch_spec. simpl.
    destruct (answer env (comicUrl n) w) as [m| |r]; simpl in *.
    - by destruct (Hsettled m).
    - done.
    - by rewrite Hmiss. }
  unfold fresh in Hstale.
  destruct (cache w !! comicKey n) as [e|]; [|done].
  by rewrite Hstale.
Qed.

(** No failure of [getById] carries the bare message [Comic not found]. *)
Lemma getById_never_bare_not_found (env : Env) (i : JsValue) (w w' : World)
    (message : string) :
  getById env i w = (inl message, w') → message ≠ "Comic not found".
Proof.
  unfold getById.
  destruct (negb (fetch_is_function env) || isJestMock env);
    [by intros [= <- <-]|].
  destruct (negb (Number_isInteger i) || (numberValue i <=? 0));
    [by intros [= <- <-]|].
  assert (Hfetch : getById_fetch env (numberValue i) (comicKey (numberValue i)) w
                   = (inl message, w') → message ≠ "Comic not found").
  { rewrite getById_fetch_spec. simpl.
    destruct (delivers_comic _); [done|]. by intros [= <- <-]. }
  unfold_monad.
  destruct (fresh (cache w !! comicKey (numberValue i)) (now w)); [|done].
  by destruct (cache w !! comicKey (numberValue i)).
Qed.

(** C2.  [getById(999999)] against an upstream that answers 404 for that
    id: the error thrown carries
    [Failed to fetch comic by ID: Comic not found], which is not the
    message [Comic not found]; the call after it fails the same way. *)
Theorem getById_missing_comic_message :
  let first := getById (node_fetch archive) (JsInt 999999) (boot 1000) in
  let second := getById (node_fetch archive) (JsInt 999999) (snd first) in
  fst first = inl "Failed to fetch comic by ID: Comic not found"
  ∧ fst second = fst first
  ∧ fst first ≠ inl "Comic not found"
  ∧ route archive (comicUrl 999999) = http_fail 404 "Not Found".
Proof. vm_compute. repeat split; discriminate. Qed.

(** ** Random comics *)

(** The first failure of [getById] ends the loop of [getRandom]: the
    [continue] branch is never taken. *)
Lemma getRandom_loop_first_failure (env : Env) (maxId : Z) (latest : Comic)
    (attempts : nat) (w : World) :
  let w1 := snd (Math_random_times_floor env maxId w) in
  let randomId := (random53 env (draws w) mod 2 ^ 53) * maxId / 2 ^ 53 + 1 in
  getRandom_loop env maxId latest (S attempts) w
  = getById env (JsInt randomId) w1.
Proof.
  simpl. unfold_monad. simpl.
  destruct (getById env _ _) as [[message|v] w'] eqn:Hcall; [|done].
  apply getById_never_bare_not_found in Hcall.
  by destruct (String.eqb_spec message "Comic not found").
Qed.

(** C3.  [getRandom()] with the latest comic numbered 3 and the draw
    [r = 1/2], which picks id 2, a gap in the archive: the call fails with
    the not-found error of that single attempt; only two requests were
    issued (the latest comic and id 2), no second id was tried and the
    latest comic was not returned. *)
Theorem getRandom_fails_on_missing_id :
  let call := getRandom (node_fetch archive) (boot 1000) in
  fst call
  = inl "Failed to fetch random comic: Failed to fetch comic by ID: Comic not found"
  ∧ requests (snd call) = [(1050, comicUrl 2); (1000, latestUrl)]
  ∧ draws (snd call) = 1%nat
  ∧ route archive (comicUrl 2) = http_fail 404 "Not Found".
Proof. vm_compute. repeat split. Qed.

(** ** The scan of [search] *)

(** The scan never throws: whatever [getById] throws is caught and the
    loop goes on with the next id. *)
Lemma search_scan_returns (env : Env) (q : string) (count : nat) :
  ∀ (k : Z) (rs : list Comic) (w : World),
    ∃ all w', search_scan env q count k rs w = (inr all, w').
Proof.
  induction count as [|count IH]; intros k rs w; simpl.
  - by exists rs, w.
  - unfold_monad.
    destruct (getById env (JsInt k) w) as [[message|c] w1].
    + destruct (String.eqb message "Comic not found"); apply IH.
    + destruct (matches q c); apply IH.
Qed.

(** One round of the scan. *)
Lemma search_scan_step (env : Env) (q : string) (count : nat) (k : Z)
    (rs : list Comic) (w : World) :
  search_scan env q (S count) k rs w =
    match getById env (JsInt k) w with
    | (inr c, w1) =>
        search_scan env q count (k - 1)
          (if matches q c then rs ++ [c] else rs)%list w1
    | (inl _, w1) => search_scan env q count (k - 1) rs w1
    end.
Proof.
  simpl. unfold_monad.
  destruct (getById env (JsInt k) w) as [[message|c] w1].
  - by destruct (String.eqb message "Comic not found").
  - by destruct (matches q c).
Qed.

(** C4.  [search("part")] while the upstream answers the request for comic
    2, inside the scanned window 3..1, with HTTP 500: [getById(2)] throws
    a fetch error that is not a not-found error, yet [search] returns
    normally; the scan went on to comic 1 and reports it. *)
Theorem search_swallows_upstream_error :
  let env := node_fetch archive_with_outage in
  let call := search env (JsString "part") JsUndefined JsUndefined (boot 1000) in
  fst (getById env (JsInt 2) (boot 1000))
    = inl "Failed to fetch comic by ID: HTTP 500: Internal Server Error"
  ∧ (∃ r, fst call = inr r
          ∧ results r = [processComic (sample_comic 1 "Barrel - Part 1")]
          ∧ total r = 1)
  ∧ requests (snd call)
    = [(1110, comicUrl 1); (1080, comicUrl 2); (1050, comicUrl 3);
       (1000, latestUrl)].
Proof.
  vm_compute. split; [reflexivity|]. split; [|reflexivity].
  eexists. repeat split.
Qed.

(** ** Validation of the query *)

Lemma search_valid (env : Env) (s : string) (p l : JsValue) (w : World) :
  fetch_is_function env = true →
  isJestMock env = false →
  bad_length s = false →
  search env (JsString s) p l w =
    match getLatest env w with
    | (inl message, w1) => (inl message, w1)
    | (inr latest, w1) =>
        match search_scan env (toLowerCase (trim s))
                (scan_count (id latest)) (id latest) [] w1 with
        | (inr all, w') =>
            (inr (paginate s (default_param p (JsInt 1))
                    (default_param l (JsInt 10)) all), w')
        | (inl message, w') => (inl message, w')
        end
    end.
Proof.
  intros Hf Hm Hlen. unfold search. rewrite Hf, Hm, Hlen. simpl.
  unfold_monad.
  destruct (getLatest env w) as [[message|latest] w1]; [done|].
  by destruct (search_scan _ _ _ _ _ _) as [[message|all] w'].
Qed.

Lemma search_invalid (env : Env) (s : string) (p l : JsValue) (w : World) :
  fetch_is_function env = true →
  isJestMock env = false →
  bad_length s = true →
  search env (JsString s) p l w = (inl "Invalid search query", w).
Proof. intros Hf Hm Hlen. unfold search. by rewrite Hf, Hm, Hlen. Qed.

(** Every failure of [getLatest] behind a real [fetch] is a wrapped one. *)
Lemma getLatest_failure_message (env : Env) (w w' : World) (message : string) :
  fetch_is_function env = true →
  getLatest env w = (inl message, w') →
  ∃ cause, message = "Failed to fetch latest comic: " +:+ cause.
Proof.
  intros Hf. rewrite getLatest_paths by done.
  assert (Hcold : getLatest_cold env latestKey w = (inl message, w') →
                  ∃ cause, message = "Failed to fetch latest comic: " +:+ cause).
  { rewrite getLatest_cold_spec. simpl.
    destruct (delivers_latest _); [done|]. intros [= <- <-]. eauto. }
  destruct (cache w !! latestKey) as [e|]; [|done].
  by destruct (now w - timestamp e <? cacheTimeout).
Qed.

(** C6.  With [n] the length of the trimmed query: when [n] is 0 or more
    than 100, [search] throws [Invalid search query] and hands the world
    back unchanged (no request is issued); when [n] is between 1 and 100,
    whatever [search] does, it does not throw [Invalid search query]. *)
Theorem search_query_length (env : Env) (s : string) (p l : JsValue) (w : World) :
  fetch_is_function env = true →
  isJestMock env = false →
  let n := String.length (trim s) in
  ((n = 0 ∨ 100 < n)%nat →
   search env (JsString s) p l w = (inl "Invalid search query", w))
  ∧ ((1 ≤ n ≤ 100)%nat →
     fst (search env (JsString s) p l w) ≠ inl "Invalid search query").
Proof.
  intros Hf Hm n. split.
  - intros Hn. apply search_invalid; [done..|].
    unfold bad_length. fold n. apply orb_true_iff. lia.
  - intros Hn. rewrite search_valid; [|done..|].
    + destruct (getLatest env w) as [[message|latest] w1] eqn:Hlatest.
      * apply getLatest_failure_message in Hlatest as [cause ->]; [|done].
        simpl. discriminate.
      * destruct (search_scan_returns env (toLowerCase (trim s))
                    (scan_count (id latest)) (id latest) [] w1)
          as (all & w' & ->).
        simpl. discriminate.
    + unfold bad_length. fold n. apply orb_false_iff. lia.
Qed.

Lemma search_query_length_witness :
  search (node_fetch archive) (JsString "") (JsInt 1) (JsInt 10) (boot 1000)
    = (inl "Invalid search query", boot 1000)
  ∧ search (node_fetch archive) (JsString (String_repeat " " 101))
      (JsInt 1) (JsInt 10) (boot 1000)
    = (inl "Invalid search query", boot 1000)
  ∧ search (node_fetch archive) (JsString (String_repeat "a" 101))
      (JsInt 1) (JsInt 10) (boot 1000)
    = (inl "Invalid search query", boot 1000)
  ∧ fst (search (node_fetch archive) (JsString " python ") (JsInt 2) (JsInt 5)
           (boot 1000))
    ≠ inl "Invalid search query".
Proof.
  split; [|split; [|split]].
  - apply (search_query_length (node_fetch archive) ""); [done..|].
    left. reflexivity.
  - apply (search_query_length (node_fetch archive) (String_repeat " " 101));
      [done..|].
    left. reflexivity.
  - apply (search_query_length (node_fetch archive) (String_repeat "a" 101));
      [done..|].
    right. vm_compute. lia.
  - apply (search_query_length (node_fetch archive) " python "); [done..|].
    vm_compute. lia.
Defined.

(** ** Pagination *)

(** [Math_ceil_div a b] is the least integer [c] with [a <= c * b]. *)
Lemma Math_ceil_div_spec (a b : Z) :
  0 < b →
  a ≤ Math_ceil_div a b * b ∧ (Math_ceil_div a b - 1) * b < a.
Proof.
  intros Hb. unfold Math_ceil_div.
  pose proof (Z.div_mod (- a) b) as Hdm.
  pose proof (Z.mod_pos_bound (- a) b Hb) as Hmod.
  nia.
Qed.

(** With a start inside [0, ∞) and a positive width, [slice] is
    [drop]-then-[take]. *)
Lemma slice_window {A} (l : list A) (off lim : Z) :
  0 ≤ off → 0 < lim →
  slice l off (off + lim) = take (Z.to_nat lim) (drop (Z.to_nat off) l).
Proof.
  intros Hoff Hlim. unfold slice, slice_index.
  destruct (off <? 0) eqn:E1; [lia|].
  destruct (off + lim <? 0) eqn:E2; [lia|].
  destruct (Z_le_gt_dec (Z.of_nat (length l)) off) as [Hout|Hin].
  - rewrite (Z.min_r off) by lia.
    rewrite !drop_ge by lia. by rewrite !take_nil.
  - rewrite (Z.min_l off) by lia.
    destruct (Z_le_gt_dec (off + lim) (Z.of_nat (length l))) as [Hfit|Hcut].
    + rewrite Z.min_l by lia. f_equal. lia.
    + rewrite Z.min_r by lia.
      rewrite !take_ge; [done|rewrite length_drop; lia..].
Qed.

Section Paginate.
Variables (s : string) (p l : JsValue) (all : list Comic).

Let r := paginate s (default_param p (JsInt 1)) (default_param l (JsInt 10)) all.

Lemma paginate_page :
  1 ≤ page (pagination r)
  ∧ (∀ n, p = JsInt n → page (pagination r) = Z.max 1 n)
  ∧ (Number_isInteger p = false → page (pagination r) = 1).
Proof.
  subst r. unfold paginate. simpl. destruct p as [|n| | |]; simpl.
  2: { destruct (n >? 0) eqn:E; split_and!; try done; try lia;
         intros ? [= <-]; lia. }
  all: split_and!; done.
Qed.

Lemma paginate_limit :
  1 ≤ limit (pagination r) ≤ 50
  ∧ (∀ n, l = JsInt n → 0 < n → limit (pagination r) = Z.min n 50)
  ∧ (l = JsUndefined → limit (pagination r) = 10)
  ∧ (¬ (∃ n, l = JsInt n ∧ 0 < n) → limit (pagination r) = 10).
Proof.
  subst r. unfold paginate. simpl. destruct l as [|n| | |]; simpl.
  2: { destruct (n >? 0) eqn:E; split_and!; try done; try lia.
       - intros ? [= <-]. lia.
       - intros Hno. destruct Hno. exists n. split; [done|lia].
       - intros ? [= <-]. lia. }
  all: split_and!; done.
Qed.

Lemma paginate_offset :
  offset (pagination r) = (page (pagination r) - 1) * limit (pagination r)
  ∧ 0 ≤ offset (pagination r).
Proof.
  pose proof paginate_page as (Hp & _). pose proof paginate_limit as (Hl & _).
  assert (Heq : offset (pagination r)
                = (page (pagination r) - 1) * limit (pagination r)) by done.
  split; [done|]. rewrite Heq. nia.
Qed.

Lemma paginate_total : total r = Z.of_nat (length all).
Proof. done. Qed.

Lemma paginate_pages :
  pages (pagination r)
  = Z.max 1 (Math_ceil_div (total r) (limit (pagination r))).
Proof. done. Qed.

Lemma paginate_results :
  results r
  = take (Z.to_nat (limit (pagination r)))
      (drop (Z.to_nat (offset (pagination r))) all).
Proof.
  pose proof paginate_offset as (Hoff & Hpos).
  pose proof paginate_limit as (Hl & _).
  rewrite <- slice_window by lia. done.
Qed.
End Paginate.

(** C10.  For a valid query, once the latest comic is known the search
    returns a result (it does not throw), whatever the page.  With [all]
    the full list of matches of the scan: [total] is its length; [pages]
    is [max(1, ceil(total / limit))], that is the least [k >= 1] with
    [total <= k * limit]; a positive integer page [n] is echoed as it is,
    also when it exceeds [pages]; and when [(n - 1) * limit] is at or
    beyond the number of matches the returned list is empty. *)
Theorem search_page_past_the_end (env : Env) (s : string) (p l : JsValue)
    (w w1 : World) (latest : Comic) :
  fetch_is_function env = true →
  isJestMock env = false →
  bad_length s = false →
  getLatest env w = (inr latest, w1) →
  ∃ all w' r,
    search_scan env (toLowerCase (trim s)) (scan_count (id latest))
      (id latest) [] w1 = (inr all, w')
    ∧ search env (JsString s) p l w = (inr r, w')
    ∧ total r = Z.of_nat (length all)
    ∧ pages (pagination r)
      = Z.max 1 (Math_ceil_div (total r) (limit (pagination r)))
    ∧ 1 ≤ pages (pagination r)
    ∧ total r ≤ pages (pagination r) * limit (pagination r)
    ∧ (pages (pagination r) = 1
       ∨ (pages (pagination r) - 1) * limit (pagination r) < total r)
    ∧ (∀ n, p = JsInt n → 0 < n →
            page (pagination r) = n
            ∧ (total r ≤ (n - 1) * limit (pagination r) → results r = [])).
Proof.
  intros Hf Hm Hlen Hlatest.
  destruct (search_scan_returns env (toLowerCase (trim s))
              (scan_count (id latest)) (id latest) [] w1) as (all & w' & Hscan).
  exists all, w', (paginate s (default_param p (JsInt 1))
                     (default_param l (JsInt 10)) all).
  pose proof (paginate_page s p l all) as (Hp1 & Hp2 & _).
  pose proof (paginate_limit s p l all) as (Hl1 & _).
  pose proof (paginate_offset s p l all) as (Hoff & Hoff0).
  pose proof (paginate_results s p l all) as Hres.
  cbv zeta in *.
  set (r := paginate s _ _ all) in *.
  assert (Htotal : total r = Z.of_nat (length all)) by done.
  assert (Hpages : pages (pagination r)
                   = Z.max 1 (Math_ceil_div (total r) (limit (pagination r))))
    by done.
  destruct (Math_ceil_div_spec (total r) (limit (pagination r)))
    as (Hup & Hlow); [lia|].
  split; [done|]. split.
  { rewrite search_valid, Hlatest, Hscan by done. done. }
  split; [done|]. split; [done|]. split; [lia|]. split.
  { rewrite Hpages. nia. }
  split.
  { rewrite Hpages.
    destruct (Z.max_spec 1 (Math_ceil_div (total r) (limit (pagination r))))
      as [[Hlt ->]|[Hge ->]]; [right; lia|by left]. }
  intros n Hn Hpos.
  assert (Hpage : page (pagination r) = n).
  { rewrite (Hp2 n Hn). lia. }
  split; [exact Hpage|].
  intros Hpast. rewrite Hres, Hoff, Hpage.
  rewrite drop_ge; [apply take_nil|lia].
Qed.

Lemma search_page_past_the_end_witness :
  ∃ w' r,
    search (node_fetch archive) (JsString "python") (JsInt 5) (JsInt 5)
      (boot 1000) = (inr r, w')
    ∧ total r = 1
    ∧ pages (pagination r) = 1
    ∧ page (pagination r) = 5
    ∧ results r = [].
Proof.
  destruct (search_page_past_the_end (node_fetch archive) "python"
              (JsInt 5) (JsInt 5) (boot 1000)
              (snd (getLatest (node_fetch archive) (boot 1000)))
              (processComic (sample_comic 3 "Python")))
    as (all & w' & r & Hscan & Hsearch & Htotal & Hpages & _ & _ & _ & Hpage);
    [reflexivity | reflexivity | reflexivity | by vm_compute |].
  assert (Hall : all = [processComic (sample_comic 3 "Python")]).
  { vm_compute in Hscan. by injection Hscan as <- _. }
  subst all. simpl in Htotal.
  destruct (Hpage 5 eq_refl ltac:(lia)) as (Hp & Hpast).
  assert (Hlimit : limit (pagination r) = 5).
  { vm_compute in Hsearch. by injection Hsearch as <- _. }
  rewrite Hlimit in Hpages, Hpast. rewrite Htotal in Hpages, Hpast.
  exists w', r.
  split; [exact Hsearch|]. split; [exact Htotal|]. split; [exact Hpages|].
  split; [exact Hp|].
  apply Hpast. lia.
Defined.

(** ** Order of the results *)

Lemma getLatest_coherent (env : Env) (w w1 : World) (r : string + Comic) :
  getLatest env w = (r, w1) → cache_coherent w → cache_coherent w1.
Proof.
  unfold getLatest.
  destruct (negb (fetch_is_function env)); [by intros [= <- <-]|].
  assert (Hcold : getLatest_cold env latestKey w = (r, w1) →
                  cache_coherent w → cache_coherent w1).
  { rewrite getLatest_cold_spec. simpl.
    destruct (delivers_latest _) as [c|]; intros [= <- <-] Hcoh; [|done].
    intros n e. simpl.
    rewrite lookup_insert_ne by (symmetry; apply comicKey_not_latest).
    apply Hcoh. }
  unfold_monad.
  destruct (fresh (cache w !! latestKey) (now w)); [|done].
  destruct (cache w !! latestKey); [|done].
  by destruct (nextCachedPenalty w); intros [= <- <-].
Qed.

(** Against a coherent upstream, [getById(k)] keeps the cache coherent and
    every comic it returns is numbered [k]. *)
Lemma getById_coherent (env : Env) (k : Z) (w w1 : World) (r : string + Comic) :
  upstream_coherent env →
  cache_coherent w →
  getById env (JsInt k) w = (r, w1) →
  cache_coherent w1 ∧ ∀ c, r = inr c → id c = k.
Proof.
  intros Hup Hcoh. unfold getById.
  destruct (negb (fetch_is_function env) || isJestMock env);
    [by intros [= <- <-]|].
  simpl. destruct (k <=? 0); [by intros [= <- <-]|].
  assert (Hfetch : getById_fetch env k (comicKey k) w = (r, w1) →
                   cache_coherent w1 ∧ ∀ c, r = inr c → id c = k).
  { rewrite getById_fetch_spec. simpl.
    destruct (delivers_comic _) as [c|] eqn:Hc; intros [= <- <-]; [|done].
    apply Hup in Hc. split.
    - intros n e. simpl. destruct (decide (n = k)) as [->|Hne].
      + rewrite lookup_insert_eq. by intros [= <-].
      + rewrite lookup_insert_ne by (intros Heq; by apply comicKey_inj in Heq).
        apply Hcoh.
    - by intros ? [= <-]. }
  unfold_monad.
  destruct (fresh (cache w !! comicKey k) (now w)); [|done].
  destruct (cache w !! comicKey k) as [e|] eqn:Hlook; [|done].
  intros [= <- <-]. split; [done|]. intros ? [= <-]. by apply Hcoh.
Qed.

Lemma most_recent_first_snoc (rs : list Comic) (c : Comic) :
  most_recent_first rs →
  Forall (fun c' => id c < id c') rs →
  most_recent_first (rs ++ [c]).
Proof.
  intros Hsorted Habove. apply StronglySorted_app_2.
  - intros c1 c2 H1 ->%list_elem_of_singleton.
    by apply (proj1 (Forall_forall _ _) Habove).
  - done.
  - repeat constructor.
Qed.

(** The invariant of the scan: the matches so far are listed most recent
    first and all lie above the id visited next. *)
Lemma search_scan_sorted (env : Env) (q : string) (count : nat) :
  upstream_coherent env →
  ∀ (k : Z) (rs all : list Comic) (w w' : World),
    cache_coherent w →
    most_recent_first rs →
    Forall (fun c => k < id c) rs →
    search_scan env q count k rs w = (inr all, w') →
    most_recent_first all.
Proof.
  intros Hup. induction count as [|count IH]; intros k rs all w w' Hcoh Hs Hab.
  - simpl. unfold ret. by intros [= <- <-].
  - rewrite search_scan_step.
    destruct (getById env (JsInt k) w) as [[message|c] w1] eqn:Hcall;
      destruct (getById_coherent _ _ _ _ _ Hup Hcoh Hcall) as (Hcoh1 & Hid).
    + apply IH; [done..|]. eapply Forall_impl; [exact Hab|]. simpl. lia.
    + specialize (Hid c eq_refl).
      destruct (matches q c).
      * apply IH; [done| |].
        -- apply most_recent_first_snoc; [done|]. by rewrite Hid.
        -- apply Forall_app. split.
           ++ eapply Forall_impl; [exact Hab|]. simpl. lia.
           ++ repeat constructor. lia.
      * apply IH; [done..|]. eapply Forall_impl; [exact Hab|]. simpl. lia.
Qed.

Lemma most_recent_first_window (all : list Comic) (n m : nat) :
  most_recent_first all → most_recent_first (take n (drop m all)).
Proof.
  intros Hs. unfold most_recent_first in *.
  rewrite <- (take_drop m all) in Hs. apply StronglySorted_app in Hs as (_ & _ & Hs).
  rewrite <- (take_drop n (drop m all)) in Hs.
  by apply StronglySorted_app in Hs as (_ & Hs & _).
Qed.

(** ** URLs *)

Lemma String_length_app (a b : string) :
  String.length (a +:+ b) = (String.length a + String.length b)%nat.
Proof.
  induction a as [|x a IH]; [done|].
  change (S (String.length (a +:+ b))
          = S (String.length a + String.length b)).
  by rewrite IH.
Qed.

Lemma String_app_cancel_r (a b c : string) : a +:+ c = b +:+ c → a = b.
Proof.
  revert b. induction a as [|x a IH]; intros [|y b] H.
  - done.
  - apply (f_equal String.length) in H.
    rewrite !String_length_app in H. simpl in H. lia.
  - apply (f_equal String.length) in H.
    rewrite !String_length_app in H. simpl in H. lia.
  - change (String x (a +:+ c) = String y (b +:+ c)) in H.
    injection H as -> H. f_equal. by apply IH.
Qed.

Lemma comicUrl_inj (n m : Z) : comicUrl n = comicUrl m → n = m.
Proof.
  unfold comicUrl. intros H.
  apply (inj (String.app baseUrl)) in H.
  apply (inj (String.app "/")) in H.
  apply String_app_cancel_r in H.
  by apply (inj pretty) in H.
Qed.

Lemma comicUrl_not_latest (n : Z) : comicUrl n ≠ latestUrl.
Proof.
  unfold comicUrl, latestUrl. intros H.
  apply (inj (String.app baseUrl)) in H.
  apply (f_equal String.length) in H.
  rewrite !String_length_app in H. simpl in H.
  set (k := String.length (pretty n)) in H. clearbody k. lia.
Qed.

(** ** Coherent archives *)

Lemma route_coherent (table : list (string * FetchOutcome)) (n : Z)
    (c : RawComic) :
  table_coherent table →
  delivers_comic (route table (comicUrl n)) = Some c → num c = n.
Proof.
  induction 1 as [|[u o] table Hentry _ IH]; simpl; [done|].
  destruct (String.eqb_spec u (comicUrl n)) as [->|_]; [|done].
  intros Hc. by apply (Hentry c n).
Qed.

Lemma node_fetch_coherent (table : list (string * FetchOutcome)) :
  table_coherent table → upstream_coherent (node_fetch table).
Proof. intros Htable log t n c. simpl. by apply route_coherent. Qed.

Lemma archive_coherent : table_coherent archive.
Proof.
  repeat constructor; simpl; intros c n [= <-] Hurl.
  - by destruct (comicUrl_not_latest n).
  - by apply comicUrl_inj in Hurl.
  - by apply comicUrl_inj in Hurl.
Qed.

Lemma boot_coherent (t : Z) : cache_coherent (boot t).
Proof. intros n e. simpl. by rewrite lookup_empty. Qed.

(** ** The shape of a search result *)

Lemma search_success_valid (env : Env) (q p l : JsValue) (w w' : World)
    (r : SearchResult) :
  search env q p l w = (inr r, w') →
  fetch_is_function env = true ∧ isJestMock env = false
  ∧ ∃ s, q = JsString s ∧ bad_length s = false.
Proof.
  unfold search.
  destruct (fetch_is_function env), (isJestMock env); simpl; try done.
  destruct q as [| | |s|]; try done.
  destruct (bad_length s) eqn:Hlen; [done|].
  intros _. split; [done|]. split; [done|]. by exists s.
Qed.




(** * Further properties of the service *)

(** ** The latest comic from the cache *)

(** X1.  When [getLatest()] has returned comic [v], the cache holds [v]
    under ["latest"]; in every later world that still holds this entry
    within the time-out, [getLatest()] returns [v] again, issues no
    request and leaves the cache as it is. *)
Theorem getLatest_again_within_ttl (env : Env) (w w1 : World) (v : Comic) :
  getLatest env w = (inr v, w1) →
  ∃ e, cache w1 !! latestKey = Some e
       ∧ data e = v
       ∧ ∀ w2, cache w2 !! latestKey = Some e →
               now w2 - timestamp e < cacheTimeout →
               fst (getLatest env w2) = inr v
               ∧ requests (snd (getLatest env w2)) = requests w2
               ∧ cache (snd (getLatest env w2)) = cache w2.
Proof.
  intros Hcall.
  assert (Hf : fetch_is_function env = true).
  { unfold getLatest in Hcall. by destruct (fetch_is_function env). }
  assert (Hentry : ∃ e, cache w1 !! latestKey = Some e ∧ data e = v).
  { rewrite getLatest_paths in Hcall by done.
    assert (Hcold : getLatest_cold env latestKey w = (inr v, w1) →
                    ∃ e, cache w1 !! latestKey = Some e ∧ data e = v).
    { rewrite getLatest_cold_spec. simpl.
      destruct (delivers_latest _) as [c|]; [|done].
      intros [= <- <-]. simpl. eexists. by rewrite lookup_insert_eq. }
    destruct (cache w !! latestKey) as [e|] eqn:Hlook; [|auto].
    destruct (now w - timestamp e <? cacheTimeout); [|auto].
    injection Hcall as <- <-. exists e. split; [|done].
    by destruct (nextCachedPenalty w). }
  destruct Hentry as (e & Hlook & <-). exists e.
  split; [done|]. split; [done|].
  intros w2 Hlook2 Hfresh. rewrite getLatest_paths by done. rewrite Hlook2.
  destruct (now w2 - timestamp e <? cacheTimeout) eqn:E; [|lia].
  simpl. by destruct (nextCachedPenalty w2).
Qed.

Lemma getLatest_again_within_ttl_witness :
  let w1 := snd (getLatest (node_fetch archive) (boot 1000)) in
  let w2 := later 299000 w1 in
  fst (getLatest (node_fetch archive) w2)
    = inr (processComic (sample_comic 3 "Python"))
  ∧ requests (snd (getLatest (node_fetch archive) w2)) = [(1000, latestUrl)].
Proof.
  intros w1 w2.
  destruct (getLatest_again_within_ttl (node_fetch archive) (boot 1000) w1
              (processComic (sample_comic 3 "Python")))
    as (e & Hentry & _ & Hagain); [by vm_compute|].
  assert (He : e = {| data := processComic (sample_comic 3 "Python");
                      timestamp := 1030 |}).
  { vm_compute in Hentry. by injection Hentry as <-. }
  subst e.
  destruct (Hagain w2) as (Hcall & Hlog & _); [by vm_compute | by vm_compute |].
  split; [exact Hcall|]. rewrite Hlog. reflexivity.
Defined.

(** X2.  The latency shape of [getLatest()].  A call that went to the
    upstream and returned [v] took at least 20 ms; the call right after it
    returns [v] from the cache and takes exactly 5 ms; the call after that
    returns [v] and takes no time; neither of the two issues a request. *)
Theorem getLatest_latency_shape (env : Env) (w w1 : World) (v : Comic) :
  getLatest env w = (inr v, w1) →
  requests w1 ≠ requests w →
  let second := getLatest env w1 in
  let third := getLatest env (snd second) in
  now w + 20 ≤ now w1
  ∧ fst second = inr v ∧ now (snd second) = now w1 + 5
  ∧ fst third = inr v ∧ now (snd third) = now (snd second)
  ∧ requests (snd third) = requests w1.
Proof.
  intros Hcall Hcold.
  assert (Hf : fetch_is_function env = true).
  { unfold getLatest in Hcall. by destruct (fetch_is_function env). }
  assert (Hw1 : ∃ t, now w ≤ t
                     ∧ cache w1 !! latestKey = Some {| data := v; timestamp := t |}
                     ∧ now w1 = t + 20 ∧ nextCachedPenalty w1 = true).
  { rewrite getLatest_paths in Hcall by done.
    assert (Hpath : getLatest_cold env latestKey w = (inr v, w1) →
                    ∃ t, now w ≤ t
                         ∧ cache w1 !! latestKey
                           = Some {| data := v; timestamp := t |}
                         ∧ now w1 = t + 20 ∧ nextCachedPenalty w1 = true).
    { rewrite getLatest_cold_spec. simpl.
      destruct (delivers_latest _) as [c|]; [|done].
      intros [= <- <-]. simpl. exists (now (after_fetch env latestUrl w)).
      rewrite lookup_insert_eq.
      split_and!; try done. unfold after_fetch. simpl. lia. }
    destruct (cache w !! latestKey) as [e|]; [|auto].
    destruct (now w - timestamp e <? cacheTimeout); [|auto].
    injection Hcall as <- <-. destruct Hcold.
    by destruct (nextCachedPenalty w). }
  destruct Hw1 as (t & Ht & Hlook & Hnow & Hpen).
  intros second third. subst third second.
  rewrite (getLatest_paths env Hf w1), Hlook, Hpen. simpl.
  destruct (now w1 - t <? cacheTimeout) eqn:E1; [|unfold cacheTimeout in *; lia].
  simpl. rewrite getLatest_paths by done. simpl. rewrite Hlook. simpl.
  destruct (now w1 + 5 - t <? cacheTimeout) eqn:E2;
    [|unfold cacheTimeout in *; lia].
  simpl. split_and!; try done. lia.
Qed.

Lemma getLatest_latency_shape_witness :
  let w1 := snd (getLatest (node_fetch archive) (boot 1000)) in
  let second := getLatest (node_fetch archive) w1 in
  let third := getLatest (node_fetch archive) (snd second) in
  now w1 = 1050 ∧ now (snd second) = 1055 ∧ now (snd third) = 1055
  ∧ requests (snd third) = [(1000, latestUrl)].
Proof.
  intros w1 second third.
  destruct (getLatest_latency_shape (node_fetch archive) (boot 1000) w1
              (processComic (sample_comic 3 "Python")))
    as (_ & _ & H2 & _ & H3 & Hlog); [by vm_compute | by vm_compute |].
  assert (Hnow : now w1 = 1050) by (by vm_compute).
  fold second in H2, H3, Hlog. fold third in H3, Hlog.
  rewrite Hnow in H2. rewrite H2 in H3.
  split; [exact Hnow|]. split; [exact H2|]. split; [exact H3|].
  rewrite Hlog. reflexivity.
Defined.

(** ** Case analyses of the two cached methods *)

Lemma getById_cases (env : Env) (i : JsValue) (w : World) :
  (∃ message, getById env i w = (inl message, w)
     ∧ (message = "getById method not implemented"
        ∨ message = "Invalid comic ID"))
  ∨ (∃ n e, i = JsInt n ∧ 0 < n
       ∧ cache w !! comicKey n = Some e
       ∧ now w - timestamp e < cacheTimeout
       ∧ getById env i w = (inr (data e), w))
  ∨ (∃ n, i = JsInt n ∧ 0 < n
       ∧ fresh (cache w !! comicKey n) (now w) = false
       ∧ getById env i w = getById_fetch env n (comicKey n) w).
Proof.
  unfold getById.
  destruct (negb (fetch_is_function env) || isJestMock env); [left; eauto|].
  destruct i as [|n| | |]; simpl; try (left; eauto; fail).
  destruct (n <=? 0) eqn:Hn; [left; eauto|]. right.
  apply Z.leb_gt in Hn. unfold_monad.
  destruct (fresh (cache w !! comicKey n) (now w)) eqn:Hfresh.
  - unfold fresh in Hfresh.
    destruct (cache w !! comicKey n) as [e|] eqn:Hlook; [|done].
    apply Z.ltb_lt in Hfresh.
    left. exists n, e. by split_and!.
  - right. exists n. by split_and!.
Qed.

Lemma getLatest_cases (env : Env) (w : World) :
  getLatest env w = (inl "getLatest method not implemented", w)
  ∨ (∃ e, cache w !! latestKey = Some e
       ∧ now w - timestamp e < cacheTimeout
       ∧ getLatest env w
         = (inr (data e),
            if nextCachedPenalty w then
              {| cache := cache w; nextCachedPenalty := false;
                 now := now w + 5; requests := requests w; draws := draws w |}
            else w))
  ∨ (fresh (cache w !! latestKey) (now w) = false
     ∧ getLatest env w = getLatest_cold env latestKey w).
Proof.
  unfold getLatest.
  destruct (negb (fetch_is_function env)); [by left|]. right.
  unfold_monad.
  destruct (fresh (cache w !! latestKey) (now w)) eqn:Hfresh.
  - unfold fresh in Hfresh.
    destruct (cache w !! latestKey) as [e|] eqn:Hlook; [|done].
    apply Z.ltb_lt in Hfresh.
    left. exists e. split_and!; try done.
    by destruct (nextCachedPenalty w).
  - by right.
Qed.

(** ** Expiry of a single comic *)

(** X3.  With no entry for comic [n], or one as old as the time-out or
    older, [getById(n)] issues exactly one request, for the URL of [n].
    When the upstream delivers, the comic built from the body is returned
    and stored under the key of [n] with the time the body arrived; when it
    does not, the call throws the wrapped cause and the cache is as
    before. *)
Theorem getById_fetches_on_miss (env : Env) (n : Z) (w : World) :
  fetch_is_function env = true →
  isJestMock env = false →
  0 < n →
  fresh (cache w !! comicKey n) (now w) = false →
  requests (snd (getById env (JsInt n) w)) = (now w, comicUrl n) :: requests w
  ∧ match delivers_comic (answer env (comicUrl n) w) with
    | Some c =>
        fst (getById env (JsInt n) w) = inr (processComic c)
        ∧ cache (snd (getById env (JsInt n) w))
          = <[comicKey n := {| data := processComic c;
                               timestamp := now (after_fetch env (comicUrl n) w) |}]>
              (cache w)
        ∧ now w ≤ now (after_fetch env (comicUrl n) w)
    | None =>
        fst (getById env (JsInt n) w)
        = inl ("Failed to fetch comic by ID: "
               +:+ getById_cause (answer env (comicUrl n) w))
        ∧ cache (snd (getById env (JsInt n) w)) = cache w
    end.
Proof.
  intros Hf Hm Hn Hstale.
  assert (Hcall : getById env (JsInt n) w = getById_fetch env n (comicKey n) w).
  { rewrite getById_valid by done. unfold fresh in Hstale.
    destruct (cache w !! comicKey n) as [e|]; [|done]. by rewrite Hstale. }
  rewrite Hcall, getById_fetch_spec. simpl.
  destruct (delivers_comic _) as [c|]; simpl; [|done].
  split_and!; try done. lia.
Qed.

Lemma getById_fetches_on_miss_witness :
  let w := later 400000 (snd (getById (node_fetch archive) (JsInt 1) (boot 1000))) in
  requests (snd (getById (node_fetch archive) (JsInt 1) w))
    = [(401030, comicUrl 1); (1000, comicUrl 1)]
  ∧ cache (snd (getById (node_fetch archive) (JsInt 1) w)) !! comicKey 1
    = Some {| data := processComic (sample_comic 1 "Barrel - Part 1");
              timestamp := 401060 |}.
Proof.
  intros w.
  destruct (getById_fetches_on_miss (node_fetch archive) 1 w)
    as (Hlog & Hdelivered);
    [reflexivity | reflexivity | lia | by vm_compute |].
  change (delivers_comic (answer (node_fetch archive) (comicUrl 1) w))
    with (Some (sample_comic 1 "Barrel - Part 1")) in Hdelivered.
  destruct Hdelivered as (_ & Hcache & _).
  split; [exact Hlog|]. rewrite Hcache. apply lookup_insert_eq.
Defined.

(** ** What a call may change *)

(** X4.  [getById(id)] changes at most the cache entry under the key of
    [id], and [getLatest()] at most the entry under ["latest"]: every
    other entry is as before.  In particular [getById] never touches the
    latest comic, and [getLatest] never touches a numbered one. *)
Theorem cache_frame (env : Env) (i : JsValue) (w : World) (key : string) :
  (key ≠ comicKey (numberValue i) →
   cache (snd (getById env i w)) !! key = cache w !! key)
  ∧ (key ≠ latestKey →
     cache (snd (getLatest env w)) !! key = cache w !! key)
  ∧ cache (snd (getById env i w)) !! latestKey = cache w !! latestKey
  ∧ (∀ n, cache (snd (getLatest env w)) !! comicKey n = cache w !! comicKey n).
Proof.
  assert (HbyId : ∀ k, k ≠ comicKey (numberValue i) →
                       cache (snd (getById env i w)) !! k = cache w !! k).
  { intros k Hk.
    destruct (getById_cases env i w)
      as [(m & -> & _)|[(n & e & _ & _ & _ & _ & ->)|(n & -> & _ & _ & ->)]];
      [done..|].
    rewrite getById_fetch_spec. simpl.
    destruct (delivers_comic _); simpl; [|done].
    by rewrite lookup_insert_ne. }
  assert (Hlatest : ∀ k, k ≠ latestKey →
                         cache (snd (getLatest env w)) !! k = cache w !! k).
  { intros k Hk.
    destruct (getLatest_cases env w) as [->|[(e & _ & _ & ->)|(_ & ->)]];
      [done|by destruct (nextCachedPenalty w)|].
    rewrite getLatest_cold_spec. simpl.
    destruct (delivers_latest _); simpl; [|done].
    by rewrite lookup_insert_ne. }
  split_and!; [apply HbyId|apply Hlatest| |].
  - apply HbyId. symmetry. apply comicKey_not_latest.
  - intros n. apply Hlatest, comicKey_not_latest.
Qed.

(** X5.  A call of [getById] or [getLatest] issues at most one request:
    the log is as before, or it has grown by one request made at the time
    of the call, for the URL of the comic asked for (for the latest
    comic, respectively). *)
Theorem one_request_per_call (env : Env) (i : JsValue) (w : World) :
  (requests (snd (getById env i w)) = requests w
   ∨ ∃ n, i = JsInt n ∧ 0 < n
          ∧ requests (snd (getById env i w)) = (now w, comicUrl n) :: requests w)
  ∧ (requests (snd (getLatest env w)) = requests w
     ∨ requests (snd (getLatest env w)) = (now w, latestUrl) :: requests w).
Proof.
  split.
  - destruct (getById_cases env i w)
      as [(m & -> & _)|[(n & e & _ & _ & _ & _ & ->)|(n & -> & Hn & _ & ->)]];
      [by left..|].
    right. exists n. split_and!; try done.
    rewrite getById_fetch_spec. simpl. by destruct (delivers_comic _).
  - destruct (getLatest_cases env w) as [->|[(e & _ & _ & ->)|(_ & ->)]].
    + by left.
    + left. by destruct (nextCachedPenalty w).
    + right. rewrite getLatest_cold_spec. simpl. by destruct (delivers_latest _).
Qed.

(** ** Error messages *)

(** X6.  Behind a real [fetch], [getById(id)] throws [Invalid comic ID]
    exactly when [id] is not a positive integer: a positive integer id is
    never rejected as invalid, whatever the upstream does. *)
Theorem getById_invalid_iff (env : Env) (i : JsValue) (w : World) :
  fetch_is_function env = true →
  isJestMock env = false →
  fst (getById env i w) = inl "Invalid comic ID"
  ↔ ¬ (∃ n, i = JsInt n ∧ 0 < n).
Proof.
  intros Hf Hm. split.
  - intros Hthrown (n & -> & Hn).
    rewrite getById_valid in Hthrown by done.
    assert (Hfetch : fst (getById_fetch env n (comicKey n) w)
                     ≠ inl "Invalid comic ID").
    { rewrite getById_fetch_spec. simpl. by destruct (delivers_comic _). }
    destruct (cache w !! comicKey n) as [e|]; [|done].
    by destruct (now w - timestamp e <? cacheTimeout).
  - intros Hbad. by rewrite getById_invalid.
Qed.

Lemma getById_invalid_iff_witness :
  fst (getById (node_fetch archive) (JsInt (-1)) (boot 1000))
    = inl "Invalid comic ID"
  ∧ fst (getById (node_fetch archive) (JsInt 2) (boot 1000))
    ≠ inl "Invalid comic ID".
Proof.
  split.
  - apply (getById_invalid_iff (node_fetch archive) (JsInt (-1)) (boot 1000));
      [reflexivity | reflexivity |].
    intros (n & [= <-] & Hn). lia.
  - intros Hthrown.
    apply (getById_invalid_iff (node_fetch archive) (JsInt 2) (boot 1000))
      in Hthrown; [|reflexivity..].
    apply Hthrown. exists 2. split; [done|lia].
Defined.

(** [getRandom] makes one attempt: the random id is drawn once and the
    outcome of [getById] for it, with a failure wrapped, is the outcome of
    the call. *)
Lemma getRandom_paths (env : Env) (w : World) :
  fetch_is_function env = true →
  isJestMock env = false →
  getRandom env w =
    match getLatest env w with
    | (inl message, w1) =>
        (inl ("Failed to fetch random comic: " +:+ message), w1)
    | (inr latest, w1) =>
        let randomId :=
          (random53 env (draws w1) mod 2 ^ 53) * id latest / 2 ^ 53 + 1 in
        match getById env (JsInt randomId)
                (snd (Math_random_times_floor env (id latest) w1)) with
        | (inr c, w2) => (inr c, w2)
        | (inl message, w2) =>
            (inl ("Failed to fetch random comic: " +:+ message), w2)
        end
    end.
Proof.
  intros Hf Hm. unfold getRandom. rewrite Hf, Hm.
  change (negb true || false) with false. cbv iota.
  unfold try_catch at 1. unfold bind at 1.
  destruct (getLatest env w) as [[message|latest] w1]; [done|].
  rewrite (getRandom_loop_first_failure env (id latest) latest 4 w1).
  cbv zeta. by destruct (getById env _ _) as [[message|c] w2].
Qed.

(** X7.  Behind a real [fetch], every failure of [getLatest], of
    [getById] with a positive integer id and of [getRandom] carries the
    method's own prefix followed by the cause. *)
Theorem failures_are_wrapped (env : Env) (n : Z) (w : World) (message : string) :
  fetch_is_function env = true →
  isJestMock env = false →
  0 < n →
  (fst (getLatest env w) = inl message →
   ∃ cause, message = "Failed to fetch latest comic: " +:+ cause)
  ∧ (fst (getById env (JsInt n) w) = inl message →
     ∃ cause, message = "Failed to fetch comic by ID: " +:+ cause)
  ∧ (fst (getRandom env w) = inl message →
     ∃ cause, message = "Failed to fetch random comic: " +:+ cause).
Proof.
  intros Hf Hm Hn. split_and!.
  - destruct (getLatest env w) as [r w1] eqn:Hcall. simpl. intros ->.
    by eapply getLatest_failure_message.
  - rewrite getById_valid by done.
    assert (Hfetch : fst (getById_fetch env n (comicKey n) w) = inl message →
                     ∃ cause, message = "Failed to fetch comic by ID: " +:+ cause).
    { rewrite getById_fetch_spec. simpl.
      destruct (delivers_comic _); simpl; [done|]. intros [= <-]. eauto. }
    destruct (cache w !! comicKey n) as [e|]; [|done].
    by destruct (now w - timestamp e <? cacheTimeout).
  - rewrite getRandom_paths by done.
    destruct (getLatest env w) as [[m|latest] w1]; simpl.
    + intros [= <-]. eauto.
    + destruct (getById env _ _) as [[m|c] w2]; simpl; [|done].
      intros [= <-]. eauto.
Qed.

Lemma failures_are_wrapped_witness :
  ∃ cause,
    "Failed to fetch comic by ID: Comic not found"
    = "Failed to fetch comic by ID: " +:+ cause.
Proof.
  destruct (failures_are_wrapped (node_fetch archive) 2 (boot 1000)
              "Failed to fetch comic by ID: Comic not found")
    as (_ & HbyId & _); [reflexivity | reflexivity | lia |].
  apply HbyId. by vm_compute.
Defined.

(** ** Coherence is an invariant *)

Lemma getById_any_coherent (env : Env) (i : JsValue) (w : World) :
  upstream_coherent env → cache_coherent w →
  cache_coherent (snd (getById env i w)).
Proof.
  intros Hup Hcoh.
  destruct (getById_cases env i w)
    as [(m & -> & _)|[(n & e & _ & _ & _ & _ & ->)|(n & -> & _ & _ & Hcall)]];
    [done..|].
  destruct (getById env (JsInt n) w) as [r w1] eqn:Hrun.
  by destruct (getById_coherent env n w w1 r Hup Hcoh Hrun).
Qed.

Lemma search_scan_coherent (env : Env) (q : string) (count : nat) :
  upstream_coherent env →
  ∀ (k : Z) (rs : list Comic) (w : World),
    cache_coherent w →
    cache_coherent (snd (search_scan env q count k rs w)).
Proof.
  intros Hup. induction count as [|count IH]; intros k rs w Hcoh; [done|].
  rewrite search_scan_step.
  pose proof (getById_any_coherent env (JsInt k) w Hup Hcoh) as Hstep.
  destruct (getById env (JsInt k) w) as [[m|c] w1]; by apply IH.
Qed.

(** X9.  Against an upstream that serves comic [n] under the URL of [n],
    a cache in which every entry under the key of comic [n] holds comic
    [n] stays that way through [getLatest], [getById], [getRandom] and
    [search]. *)
Theorem coherence_preserved (env : Env) (i q p l : JsValue) (w : World) :
  upstream_coherent env →
  cache_coherent w →
  cache_coherent (snd (getLatest env w))
  ∧ cache_coherent (snd (getById env i w))
  ∧ cache_coherent (snd (getRandom env w))
  ∧ cache_coherent (snd (search env q p l w)).
Proof.
  intros Hup Hcoh.
  assert (Hlatest : cache_coherent (snd (getLatest env w))).
  { destruct (getLatest env w) as [r w1] eqn:Hrun.
    by apply (getLatest_coherent env w w1 r). }
  split; [done|]. split; [by apply getById_any_coherent|]. split.
  - unfold getRandom.
    destruct (negb (fetch_is_function env) || isJestMock env); [done|].
    unfold try_catch at 1. unfold bind at 1.
    destruct (getLatest env w) as [[m|latest] w1]; [done|].
    simpl in Hlatest.
    rewrite (getRandom_loop_first_failure env (id latest) latest 4 w1).
    cbv zeta.
    set (w2 := snd (Math_random_times_floor env (id latest) w1)).
    assert (Hdraw : cache_coherent w2) by done.
    pose proof (getById_any_coherent env
                  (JsInt ((random53 env (draws w1) mod 2 ^ 53) * id latest
                          / 2 ^ 53 + 1)) w2 Hup Hdraw) as HbyId.
    by destruct (getById env _ w2) as [[m|c] w3].
  - unfold search.
    destruct (negb (fetch_is_function env) || isJestMock env); [done|].
    destruct q as [| | |s|]; try done.
    destruct (bad_length s); [done|].
    unfold bind at 1.
    destruct (getLatest env w) as [[m|latest] w1]; [done|].
    simpl in Hlatest. unfold bind.
    pose proof (search_scan_coherent env (toLowerCase (trim s))
                  (scan_count (id latest)) Hup (id latest) [] w1 Hlatest)
      as Hscan.
    by destruct (search_scan _ _ _ _ _ w1) as [[m|all] w2].
Qed.

Lemma coherence_preserved_witness :
  cache_coherent
    (snd (search (node_fetch archive) (JsString "p") JsUndefined JsUndefined
            (boot 1000))).
Proof.
  apply (coherence_preserved (node_fetch archive) JsUndefined (JsString "p")
           JsUndefined JsUndefined (boot 1000)).
  - apply node_fetch_coherent, archive_coherent.
  - apply boot_coherent.
Defined.

Lemma getById_success_id (env : Env) (i : JsValue) (w w' : World) (c : Comic) :
  upstream_coherent env →
  cache_coherent w →
  getById env i w = (inr c, w') →
  i = JsInt (id c) ∧ 0 < id c.
Proof.
  intros Hup Hcoh Hcall.
  destruct (getById_success_valid _ _ _ _ _ Hcall) as (_ & _ & n & -> & Hn).
  destruct (getById_coherent env n w w' _ Hup Hcoh Hcall) as (_ & Hid).
  by rewrite (Hid c eq_refl).
Qed.

(** X10.  Against a coherent upstream and with a coherent cache, the
    comic that [getById(n)] returns is numbered [n], whether it comes from
    the cache or from the upstream. *)
Theorem getById_returns_requested_id (env : Env) (i : JsValue) (w w' : World)
    (c : Comic) :
  upstream_coherent env →
  cache_coherent w →
  getById env i w = (inr c, w') →
  i = JsInt (id c) ∧ 0 < id c.
Proof.
  intros Hup Hcoh Hcall.
  destruct (getById_success_valid _ _ _ _ _ Hcall) as (_ & _ & n & -> & Hn).
  destruct (getById_coherent env n w w' (inr c) Hup Hcoh Hcall) as (_ & Hid).
  specialize (Hid c eq_refl). subst n. by split.
Qed.

Lemma getById_returns_requested_id_witness :
  id (processComic (sample_comic 3 "Python")) = 3.
Proof.
  destruct (getById_returns_requested_id (node_fetch archive) (JsInt 3)
              (boot 1000)
              (snd (getById (node_fetch archive) (JsInt 3) (boot 1000)))
              (processComic (sample_comic 3 "Python")))
    as (Hid & _).
  - apply node_fetch_coherent, archive_coherent.
  - apply boot_coherent.
  - by vm_compute.
  - exact (f_equal numberValue (eq_sym Hid)).
Defined.

(** ** The range of a random comic *)

Lemma random_id_range (m maxId : Z) :
  1 ≤ maxId →
  1 ≤ (m mod 2 ^ 53) * maxId / 2 ^ 53 + 1 ≤ maxId.
Proof.
  intros Hmax.
  pose proof (Z.mod_pos_bound m (2 ^ 53) ltac:(lia)) as Hm.
  assert (0 ≤ (m mod 2 ^ 53) * maxId / 2 ^ 53) by (apply Z.div_pos; nia).
  assert ((m mod 2 ^ 53) * maxId / 2 ^ 53 < maxId).
  { apply Z.div_lt_upper_bound; nia. }
  lia.
Qed.

(** X11.  Against a coherent upstream and with a coherent cache, the
    comic that [getRandom()] returns has an id between 1 and the id of the
    latest comic, when that is at least 1. *)
Theorem getRandom_in_range (env : Env) (w w' : World) (c : Comic) :
  upstream_coherent env →
  cache_coherent w →
  getRandom env w = (inr c, w') →
  ∃ latest w1,
    getLatest env w = (inr latest, w1)
    ∧ 1 ≤ id c
    ∧ (1 ≤ id latest → id c ≤ id latest).
Proof.
  intros Hup Hcoh Hcall.
  assert (Hguard : fetch_is_function env = true ∧ isJestMock env = false).
  { unfold getRandom in Hcall.
    by destruct (fetch_is_function env), (isJestMock env). }
  destruct Hguard as (Hf & Hm).
  rewrite getRandom_paths in Hcall by done.
  destruct (getLatest env w) as [[m|latest] w1] eqn:Hlatest; [done|].
  exists latest, w1. split; [done|].
  cbv zeta in Hcall.
  destruct (getById env _ _) as [[m|c'] w2] eqn:HbyId; [done|].
  injection Hcall as -> ->.
  assert (Hcoh1 : cache_coherent
                    (snd (Math_random_times_floor env (id latest) w1))).
  { by apply (getLatest_coherent env w w1 (inr latest)). }
  destruct (getById_success_id _ _ _ _ _ Hup Hcoh1 HbyId)
    as ([= Hid] & Hpos).
  split; [lia|]. intros Hmax.
  pose proof (random_id_range (random53 env (draws w1)) (id latest) Hmax).
  lia.
Qed.

Lemma getRandom_in_range_witness :
  ∃ c latest w1,
    fst (getRandom (node_fetch_drawing archive 0) (boot 1000)) = inr c
    ∧ getLatest (node_fetch_drawing archive 0) (boot 1000) = (inr latest, w1)
    ∧ id latest = 3
    ∧ 1 ≤ id c ≤ 3.
Proof.
  assert (Hcall : ∃ w', getRandom (node_fetch_drawing archive 0) (boot 1000)
                        = (inr (processComic (sample_comic 1 "Barrel - Part 1")),
                           w')).
  { eexists. by vm_compute. }
  destruct Hcall as (w' & Hcall).
  destruct (getRandom_in_range (node_fetch_drawing archive 0) (boot 1000) w' _
              (node_fetch_coherent archive archive_coherent)
              (boot_coherent 1000) Hcall)
    as (latest & w1 & Hlatest & Hlow & Hhigh).
  assert (Hid : id latest = 3).
  { vm_compute in Hlatest. by injection Hlatest as <- _. }
  exists (processComic (sample_comic 1 "Barrel - Part 1")), latest, w1.
  split; [by rewrite Hcall|]. split; [exact Hlatest|]. split; [exact Hid|].
  split; [exact Hlow|]. rewrite <- Hid. apply Hhigh. rewrite Hid. lia.
Defined.

(** ** The cost and the content of a search *)

Local Open Scope list_scope.

Lemma scan_count_le (maxId : Z) : (scan_count maxId ≤ 31)%nat.
Proof. unfold scan_count, scan_start. lia. Qed.

Lemma scan_count_start (maxId : Z) :
  (0 < scan_count maxId)%nat →
  maxId - Z.of_nat (scan_count maxId) + 1 = scan_start maxId
  ∧ 1 ≤ scan_start maxId.
Proof. unfold scan_count, scan_start. lia. Qed.

Lemma getById_requests (env : Env) (k : Z) (w : World) :
  requests (snd (getById env (JsInt k) w)) = requests w
  ∨ requests (snd (getById env (JsInt k) w)) = (now w, comicUrl k) :: requests w.
Proof.
  destruct (getById_cases env (JsInt k) w)
    as [(m & -> & _)|[(n & e & _ & _ & _ & _ & ->)|(n & [= <-] & _ & _ & ->)]];
    [by left..|].
  right. rewrite getById_fetch_spec. simpl. by destruct (delivers_comic _).
Qed.

(** The requests of a scan of [count] ids from [k] down: at most one per
    id, each for an id of the scanned range. *)
Lemma search_scan_requests (env : Env) (q : string) (count : nat) :
  ∀ (k : Z) (rs : list Comic) (w : World),
    ∃ added,
      requests (snd (search_scan env q count k rs w)) = added ++ requests w
      ∧ (length added ≤ count)%nat
      ∧ Forall (fun r => ∃ j, k - Z.of_nat count < j ≤ k ∧ snd r = comicUrl j)
          added.
Proof.
  induction count as [|count IH]; intros k rs w.
  - exists []. by split_and!.
  - rewrite search_scan_step.
    pose proof (getById_requests env k w) as Hone.
    destruct (getById env (JsInt k) w) as [[m|c] w1]; simpl in Hone.
    all: match goal with
         | |- context [search_scan _ _ _ _ ?rs' _] =>
             destruct (IH (k - 1) rs' w1) as (added & Hlog & Hlen & Hurls)
         end.
    all: assert (Hurls' : Forall (fun r => ∃ j, k - Z.of_nat (S count) < j ≤ k
                                               ∧ snd r = comicUrl j) added)
           by (eapply Forall_impl; [exact Hurls|];
               intros r (j & Hj & Hr); exists j; split; [lia|done]).
    all: destruct Hone as [Hone|Hone]; rewrite Hone in Hlog.
    all: try (exists added; split_and!; [done|lia|done]).
    all: exists (added ++ [(now w, comicUrl k)]);
         rewrite <- app_assoc; split_and!;
           [done|rewrite length_app; simpl; lia|].
    all: apply Forall_app; split; [done|];
         repeat constructor; exists k; split; [lia|done].
Qed.

(** X12.  A search issues at most 32 requests: one for the latest comic
    and at most one for each of the at most 31 ids of the window, each of
    them an id of at least 1. *)
Theorem search_request_bound (env : Env) (q p l : JsValue) (w : World) :
  ∃ added,
    requests (snd (search env q p l w)) = added ++ requests w
    ∧ (length added ≤ 32)%nat
    ∧ Forall (fun r => snd r = latestUrl ∨ ∃ j, 1 ≤ j ∧ snd r = comicUrl j)
        added.
Proof.
  assert (Hnone : ∃ added : list (Z * string),
             requests w = added ++ requests w
             ∧ (length added ≤ 32)%nat
             ∧ Forall (fun r => snd r = latestUrl
                                ∨ ∃ j, 1 ≤ j ∧ snd r = comicUrl j) added).
  { exists []. split_and!; [done|simpl; lia|constructor]. }
  unfold search.
  destruct (negb (fetch_is_function env) || isJestMock env); [done|].
  destruct q as [| | |s|]; try done.
  destruct (bad_length s); [done|].
  unfold bind at 1.
  assert (Hlatest : ∃ first,
             requests (snd (getLatest env w)) = first ++ requests w
             ∧ (length first ≤ 1)%nat
             ∧ Forall (fun r => snd r = latestUrl
                                ∨ ∃ j, 1 ≤ j ∧ snd r = comicUrl j) first).
  { destruct (getLatest_cases env w) as [->|[(e & _ & _ & ->)|(_ & ->)]].
    - exists []. split_and!; [done|simpl; lia|constructor].
    - exists []. split_and!; [by destruct (nextCachedPenalty w)|simpl; lia
                              |constructor].
    - exists [(now w, latestUrl)]. rewrite getLatest_cold_spec. simpl.
      split_and!; [by destruct (delivers_latest _)|simpl; lia|].
      constructor; [by left|constructor]. }
  destruct Hlatest as (first & Hfirst & Hlen1 & Hurls1).
  destruct (getLatest env w) as [[m|latest] w1]; simpl in Hfirst.
  { exists first. split_and!; [done|lia|done]. }
  unfold bind.
  destruct (search_scan_requests env (toLowerCase (trim s))
              (scan_count (id latest)) (id latest) [] w1)
    as (added & Hlog & Hlen & Hurls).
  pose proof (scan_count_le (id latest)) as Hcount.
  exists (added ++ first).
  assert (Hall : requests (snd (search_scan env (toLowerCase (trim s))
                                  (scan_count (id latest)) (id latest) [] w1))
                 = (added ++ first) ++ requests w).
  { by rewrite Hlog, Hfirst, app_assoc. }
  assert (Hurls' : Forall (fun r => snd r = latestUrl
                                    ∨ ∃ j, 1 ≤ j ∧ snd r = comicUrl j)
                     (added ++ first)).
  { apply Forall_app. split; [|done].
    destruct (scan_count (id latest)) as [|count] eqn:Hc.
    - destruct added; [constructor|simpl in Hlen; lia].
    - destruct (scan_count_start (id latest)) as (Hstart & Hone); [lia|].
      eapply Forall_impl; [exact Hurls|].
      intros r (j & Hj & Hr). right. exists j. split; [|done].
      rewrite Hc in Hstart. lia. }
  destruct (search_scan _ _ _ _ _ w1) as [[m|all] w2]; simpl in Hall;
    (split_and!; [done|rewrite length_app; lia|done]).
Qed.

(** The matches of a scan: what was there before, then only comics that
    match, at most one per scanned id. *)
Lemma search_scan_matches (env : Env) (q : string) (count : nat) :
  ∀ (k : Z) (rs all : list Comic) (w w' : World),
    search_scan env q count k rs w = (inr all, w') →
    ∃ found, all = rs ++ found
             ∧ (length found ≤ count)%nat
             ∧ Forall (fun c => matches q c = true) found.
Proof.
  induction count as [|count IH]; intros k rs all w w'.
  - simpl. unfold ret. intros [= <- <-]. exists [].
    split_and!; [by rewrite app_nil_r|done|constructor].
  - rewrite search_scan_step.
    destruct (getById env (JsInt k) w) as [[m|c] w1].
    + intros Hrest. destruct (IH _ _ _ _ _ Hrest) as (found & -> & Hlen & Hm).
      exists found. split_and!; [done|lia|done].
    + destruct (matches q c) eqn:Hmatch; intros Hrest;
        destruct (IH _ _ _ _ _ Hrest) as (found & -> & Hlen & Hm).
      * exists (c :: found). rewrite <- app_assoc.
        split_and!; [done|simpl; lia|by constructor].
      * exists found. split_and!; [done|lia|done].
Qed.

(** X13.  In the result of a search every listed comic matches the
    normalised query; the page holds at most [limit] comics and at most
    [total] of them, and [total] is at most 31, the size of the window. *)
Theorem search_results_match (env : Env) (s : string) (p l : JsValue)
    (w w' : World) (r : SearchResult) :
  search env (JsString s) p l w = (inr r, w') →
  Forall (fun c => matches (toLowerCase (trim s)) c = true) (results r)
  ∧ Z.of_nat (length (results r)) ≤ limit (pagination r)
  ∧ Z.of_nat (length (results r)) ≤ total r
  ∧ 0 ≤ total r ≤ 31.
Proof.
  intros Hsearch.
  destruct (search_success_valid _ _ _ _ _ _ _ Hsearch)
    as (Hf & Hm & s' & [= <-] & Hlen).
  rewrite search_valid in Hsearch by done.
  destruct (getLatest env w) as [[message|latest] w1]; [done|].
  destruct (search_scan env _ _ _ _ w1) as [[message|all] w2] eqn:Hscan;
    [done|].
  injection Hsearch as <- <-.
  destruct (search_scan_matches _ _ _ _ _ _ _ _ Hscan)
    as (found & -> & Hcount & Hmatch).
  pose proof (scan_count_le (id latest)) as Hwindow.
  pose proof (paginate_results s p l found) as Hres.
  pose proof (paginate_limit s p l found) as (Hlimit & _).
  cbv zeta in *. simpl app in *.
  set (r := paginate s _ _ found) in *.
  assert (Htotal : total r = Z.of_nat (length found)) by done.
  split_and!.
  - rewrite Hres. apply Forall_take, Forall_drop, Hmatch.
  - rewrite Hres, length_take. lia.
  - rewrite Hres, length_take, length_drop. lia.
  - lia.
  - lia.
Qed.

Lemma search_results_match_witness :
  ∃ r, fst (search (node_fetch archive) (JsString " PART ") (JsInt 1) (JsInt 5)
              (boot 1000)) = inr r
       ∧ Forall (fun c => matches "part" c = true) (results r)
       ∧ Z.of_nat (length (results r)) ≤ 5.
Proof.
  assert (Hcall : ∃ r w',
             search (node_fetch archive) (JsString " PART ") (JsInt 1) (JsInt 5)
               (boot 1000) = (inr r, w')
             ∧ limit (pagination r) = 5).
  { vm_compute. by eexists _, _. }
  destruct Hcall as (r & w' & Hcall & Hlimit).
  destruct (search_results_match _ _ _ _ _ _ _ Hcall) as (Hmatch & Hlen & _).
  exists r. split; [by rewrite Hcall|]. split; [exact Hmatch|].
  by rewrite <- Hlimit.
Defined.

(** ** Paging *)

Lemma concat_windows {A} (l : list A) (width : nat) (n : nat) :
  concat (map (fun k => take width (drop (k * width) l)) (seq 0 n))
  = take (n * width) l.
Proof.
  induction n as [|n IH]; [done|].
  rewrite seq_S, map_app, concat_app, IH. simpl. rewrite app_nil_r.
  rewrite take_take_drop. f_equal. lia.
Qed.

(** X14.  The pages of a result partition the matches: for any limit
    argument, the lists on pages 1 to [pages], one after the other, are
    exactly the full list of matches, in order. *)
Theorem pages_partition (s : string) (l : JsValue) (all : list Comic) :
  let count :=
    pages (pagination (paginate s (JsInt 1) (default_param l (JsInt 10)) all)) in
  concat (map (page_of s l all) (seq 0 (Z.to_nat count))) = all.
Proof.
  intros count.
  pose proof (paginate_limit s (JsInt 1) l all) as (Hlimit & _).
  cbv zeta in Hlimit. simpl default_param in Hlimit.
  set (width := limit (pagination
                  (paginate s (JsInt 1) (default_param l (JsInt 10)) all))) in *.
  assert (Hpage : ∀ k, page_of s l all k
                       = take (Z.to_nat width)
                           (drop (k * Z.to_nat width) all)).
  { intros k. unfold page_of.
    pose proof (paginate_results s (JsInt (Z.of_nat k + 1)) l all) as Hres.
    pose proof (paginate_offset s (JsInt (Z.of_nat k + 1)) l all) as (Hoff & _).
    pose proof (paginate_page s (JsInt (Z.of_nat k + 1)) l all) as (_ & Hp & _).
    cbv zeta in Hres, Hoff, Hp. simpl default_param in Hres, Hoff, Hp.
    rewrite Hres, Hoff, (Hp _ eq_refl).
    change (limit (pagination
              (paginate s (JsInt (Z.of_nat k + 1))
                 (default_param l (JsInt 10)) all))) with width.
    do 2 f_equal. rewrite Z.max_r by lia.
    replace (Z.of_nat k + 1 - 1) with (Z.of_nat k) by lia.
    rewrite Z2Nat.inj_mul by lia. by rewrite Nat2Z.id. }
  rewrite (map_ext _ _ Hpage), concat_windows.
  apply take_ge.
  assert (Hcount : Z.of_nat (length all) ≤ count * width).
  { subst count.
    change (pages (pagination (paginate s (JsInt 1)
                                 (default_param l (JsInt 10)) all)))
      with (Z.max 1 (Math_ceil_div (Z.of_nat (length all)) width)).
    pose proof (Math_ceil_div_spec (Z.of_nat (length all)) width ltac:(lia)).
    nia. }
  assert (0 ≤ count).
  { subst count.
    change (pages (pagination (paginate s (JsInt 1)
                                 (default_param l (JsInt 10)) all)))
      with (Z.max 1 (Math_ceil_div (Z.of_nat (length all)) width)).
    lia. }
  nia.
Qed.

(** ** The query is normalised *)

(** X15.  Beyond the check of its trimmed length, a search depends on its
    query only through the trimmed, lower-cased form: two strings that the
    length check treats alike and that have the same normal form lead to
    the same world, and either to the same error or to results that agree
    in [results], [total] and [pagination]; only the echoed [query] is
    each string's own trimmed form. *)
Theorem search_normalises_query (env : Env) (s1 s2 : string) (p l : JsValue)
    (w : World) :
  bad_length s1 = bad_length s2 →
  toLowerCase (trim s1) = toLowerCase (trim s2) →
  snd (search env (JsString s1) p l w) = snd (search env (JsString s2) p l w)
  ∧ match fst (search env (JsString s1) p l w),
          fst (search env (JsString s2) p l w) with
    | inl m1, inl m2 => m1 = m2
    | inr r1, inr r2 =>
        results r1 = results r2 ∧ total r1 = total r2
        ∧ pagination r1 = pagination r2
        ∧ query r1 = trim s1 ∧ query r2 = trim s2
    | _, _ => False
    end.
Proof.
  intros Hlen Hnorm.
  unfold search.
  destruct (negb (fetch_is_function env) || isJestMock env); [done|].
  rewrite Hlen, Hnorm.
  destruct (bad_length s2); [done|].
  unfold bind.
  destruct (getLatest env w) as [[m|latest] w1]; [by simpl|].
  destruct (search_scan _ _ _ _ _ w1) as [[m|all] w2]; simpl; [done|].
  by split_and!.
Qed.

Lemma search_normalises_query_witness :
  let upper := search (node_fetch archive) (JsString "  PYTHON") JsUndefined
                 JsUndefined (boot 1000) in
  let lower := search (node_fetch archive) (JsString "python ") JsUndefined
                 JsUndefined (boot 1000) in
  snd upper = snd lower
  ∧ ∃ r1 r2, fst upper = inr r1 ∧ fst lower = inr r2
             ∧ results r1 = results r2
             ∧ query r1 = "PYTHON" ∧ query r2 = "python".
Proof.
  intros upper lower.
  destruct (search_normalises_query (node_fetch archive) "  PYTHON" "python "
              JsUndefined JsUndefined (boot 1000)) as (Hworld & Hsame);
    [reflexivity | reflexivity |].
  fold upper lower in Hworld, Hsame.
  assert (Hup : ∃ r, fst upper = inr r) by (vm_compute; eauto).
  assert (Hlow : ∃ r, fst lower = inr r) by (vm_compute; eauto).
  destruct Hup as (r1 & Hup), Hlow as (r2 & Hlow).
  rewrite Hup, Hlow in Hsame.
  destruct Hsame as (Hres & _ & _ & Hq1 & Hq2).
  split; [exact Hworld|]. exists r1, r2.
  split; [exact Hup|]. split; [exact Hlow|]. split; [exact Hres|].
  split; [exact Hq1|exact Hq2].
Defined.

(** X16.  For a valid query behind a real [fetch], [search] fails exactly
    when [getLatest] fails, and then with the error of [getLatest] as it
    is: the scan adds no failure of its own. *)
Theorem search_fails_iff_latest_fails (env : Env) (s : string) (p l : JsValue)
    (w : World) (message : string) :
  fetch_is_function env = true →
  isJestMock env = false →
  bad_length s = false →
  fst (search env (JsString s) p l w) = inl message
  ↔ fst (getLatest env w) = inl message.
Proof.
  intros Hf Hm Hlen. rewrite search_valid by done.
  destruct (getLatest env w) as [[m|latest] w1];
    [simpl; split; by intros [= ->]|].
  destruct (search_scan_returns env (toLowerCase (trim s))
              (scan_count (id latest)) (id latest) [] w1) as (all & w2 & ->).
  simpl. split; intros; discriminate.
Qed.

Lemma search_fails_iff_latest_fails_witness :
  fst (search (node_fetch []) (JsString "python") JsUndefined JsUndefined
         (boot 1000))
  = inl "Failed to fetch latest comic: HTTP 404: Not Found".
Proof.
  apply (search_fails_iff_latest_fails (node_fetch []) "python");
    [reflexivity | reflexivity | reflexivity | by vm_compute].
Defined.

(** * Properties of the HTTP layer *)

Local Open Scope string_scope.
Local Open Scope Z_scope.

(** ** Substrings *)

Lemma prefix_self (s : string) : String.prefix s s = true.
Proof.
  induction s as [|c s IH]; [done|].
  change (String.prefix (String c s) (String c s))
    with (if ascii_dec c c then String.prefix s s else false).
  by destruct (ascii_dec c c).
Qed.

Lemma includes_self (s : string) : includes s s = true.
Proof.
  destruct s as [|c s]; [done|].
  change (includes (String c s) (String c s))
    with (String.prefix (String c s) (String c s) || includes s (String c s)).
  by rewrite prefix_self.
Qed.

Lemma includes_app (a b : string) : includes (a +:+ b) b = true.
Proof.
  induction a as [|c a IH]; [apply includes_self|].
  change (String.prefix b (String c (a +:+ b)) || includes (a +:+ b) b = true).
  rewrite IH. apply orb_true_r.
Qed.

(** ** The error handler on the errors of the service *)

Lemma errorHandler_plain (message : string) (requestId : option string) (t : Z) :
  message ≠ "Comic not found" →
  message ≠ "Invalid comic ID" →
  errorHandler (plain_error message) requestId t
  = internal_server_error requestId.
Proof.
  intros Hnf Hinv. unfold errorHandler, plain_error. simpl.
  destruct (String.eqb_spec message "Comic not found"); [done|].
  by destruct (String.eqb_spec message "Invalid comic ID").
Qed.

Lemma errorHandler_wrapped (pre cause : string) (requestId : option string)
    (t : Z) :
  (String.length "Invalid comic ID" < String.length pre)%nat →
  errorHandler (plain_error (pre +:+ cause)) requestId t
  = internal_server_error requestId.
Proof.
  intros Hlen. apply errorHandler_plain; intros Heq;
    apply (f_equal String.length) in Heq;
    rewrite String_length_app in Heq; simpl in Heq, Hlen; lia.
Qed.

(** ** The routes of the latest and of a random comic *)

(** X17.  The routes [/latest] and [/random] answer either 200 with a
    comic or 500 with the fixed report [Internal Server Error]; the cause
    of a failure is never part of the answer, and a random id that is
    missing upstream is answered with 500, not with 404. *)
Theorem latest_and_random_replies (env : Env) (requestId : option string)
    (w : World) :
  ((∃ c, fst (latestRoute env requestId w) = res_json (ComicBody c))
   ∨ fst (latestRoute env requestId w) = internal_server_error requestId)
  ∧ ((∃ c, fst (randomRoute env requestId w) = res_json (ComicBody c))
     ∨ fst (randomRoute env requestId w) = internal_server_error requestId).
Proof.
  split.
  - unfold latestRoute.
    destruct (getLatest env w) as [[m|c] w1] eqn:Hcall; [|left; by exists c].
    right. simpl. unfold next.
    destruct (fetch_is_function env) eqn:Hf.
    + destruct (getLatest_failure_message env w w1 m Hf Hcall) as (cause & ->).
      apply errorHandler_wrapped. simpl. lia.
    + unfold getLatest in Hcall. rewrite Hf in Hcall. injection Hcall as <- <-.
      by apply errorHandler_plain.
  - unfold randomRoute.
    destruct (getRandom env w) as [[m|c] w1] eqn:Hcall; [|left; by exists c].
    right. simpl. unfold next.
    destruct (negb (fetch_is_function env) || isJestMock env) eqn:Hguard.
    + unfold getRandom in Hcall. rewrite Hguard in Hcall.
      injection Hcall as <- <-. by apply errorHandler_plain.
    + apply orb_false_iff in Hguard as (Hf%negb_false_iff & Hm).
      rewrite getRandom_paths in Hcall by done.
      destruct (getLatest env w) as [[m'|latest] w2].
      * injection Hcall as <- <-. apply errorHandler_wrapped. simpl. lia.
      * cbv zeta in Hcall.
        destruct (getById env _ _) as [[m'|c] w3]; [|done].
        injection Hcall as <- <-. apply errorHandler_wrapped. simpl. lia.
Qed.

(** ** The route of a numbered comic *)

(** X18.  The answer of the route [/:id] has one of four shapes: 200 with
    the comic that [getById] returned, 404 [Comic not found], 400
    [Comic ID must be a positive integer], or the fixed 500 report. *)
Theorem idRoute_replies (env : Env) (param : string)
    (requestId : option string) (w : World) :
  (∃ c w', getById env (parseInt10 param) w = (inr c, w')
           ∧ idRoute env param requestId w = (res_json (ComicBody c), w'))
  ∨ fst (idRoute env param requestId w) = not_found_reply
  ∨ fst (idRoute env param requestId w) = bad_id_reply
  ∨ fst (idRoute env param requestId w) = internal_server_error requestId.
Proof.
  unfold idRoute.
  destruct (getById env (parseInt10 param) w) as [[m|c] w1];
    [|left; by exists c, w1].
  right.
  destruct (includes m "Comic not found") eqn:Hnf; [by left|].
  destruct (includes m "Invalid comic ID") eqn:Hinv; [right; by left|].
  right. right. simpl. unfold next. apply errorHandler_plain.
  - intros ->. by rewrite includes_self in Hnf.
  - intros ->. by rewrite includes_self in Hinv.
Qed.

(** X19.  Behind a real [fetch], a parameter that [parseInt] does not
    read as a positive integer is answered by the route [/:id] with 400
    [Comic ID must be a positive integer]; no request is issued and the
    world is as before. *)
Theorem idRoute_bad_param (env : Env) (param : string)
    (requestId : option string) (w : World) :
  fetch_is_function env = true →
  isJestMock env = false →
  ¬ (∃ n, parseInt10 param = JsInt n ∧ 0 < n) →
  idRoute env param requestId w = (bad_id_reply, w).
Proof.
  intros Hf Hm Hbad. unfold idRoute.
  by rewrite getById_invalid.
Qed.

Lemma idRoute_bad_param_witness :
  idRoute (node_fetch archive) "abc" None (boot 1000)
    = (bad_id_reply, boot 1000)
  ∧ idRoute (node_fetch archive) " -7" None (boot 1000)
    = (bad_id_reply, boot 1000)
  ∧ idRoute (node_fetch archive) "0x10" None (boot 1000)
    = (bad_id_reply, boot 1000).
Proof.
  split_and!.
  - apply (idRoute_bad_param (node_fetch archive) "abc");
      [reflexivity | reflexivity |].
    intros (n & Hn & _). discriminate.
  - apply (idRoute_bad_param (node_fetch archive) " -7");
      [reflexivity | reflexivity |].
    intros (n & [= <-] & Hn). lia.
  - apply (idRoute_bad_param (node_fetch archive) "0x10");
      [reflexivity | reflexivity |].
    intros (n & [= <-] & Hn). lia.
Defined.

(** X20.  Behind a real [fetch], when the parameter reads as the positive
    integer [n], the cache has no fresh entry for [n] and the upstream
    answers 404 (or with no response object), the route [/:id] answers 404
    [Comic not found]: the wrapped message of [getById] still contains
    the text the route looks for.  The cache is as before. *)
Theorem idRoute_missing_comic (env : Env) (param : string) (n : Z)
    (requestId : option string) (w : World) :
  fetch_is_function env = true →
  isJestMock env = false →
  parseInt10 param = JsInt n →
  0 < n →
  fresh (cache w !! comicKey n) (now w) = false →
  missing (match answer env (comicUrl n) w with
           | Resolves r => Some r
           | _ => None
           end) = true →
  (∀ message, answer env (comicUrl n) w ≠ Rejects message) →
  fst (idRoute env param requestId w) = not_found_reply
  ∧ cache (snd (idRoute env param requestId w)) = cache w.
Proof.
  intros Hf Hm Hparse Hn Hstale Hmiss Hsettled. unfold idRoute.
  rewrite Hparse, (getById_missing env n w) by done.
  done.
Qed.

Lemma idRoute_missing_comic_witness :
  fst (idRoute (node_fetch archive) "999999" (Some "k3j9x0a1b") (boot 1000))
  = not_found_reply.
Proof.
  apply (idRoute_missing_comic (node_fetch archive) "999999" 999999
           (Some "k3j9x0a1b") (boot 1000));
    [reflexivity | reflexivity | reflexivity | lia | reflexivity
    | by vm_compute | by vm_compute].
Defined.

(** ** The search route *)

(** X21.  The search route answers either 200 with the result of [search]
    or the fixed 500 report.  A query that the service rejects (one whose
    trimmed length is 0 or above 100, or one that is not a string) gets
    the 500 report, with the world as before, when [fetch] is real. *)
Theorem searchRoute_replies (env : Env) (q : JsValue) (page limit : option string)
    (requestId : option string) (w : World) :
  ((∃ r, fst (searchRoute env q page limit requestId w)
         = res_json (SearchBody r))
   ∨ fst (searchRoute env q page limit requestId w)
     = internal_server_error requestId)
  ∧ (fetch_is_function env = true → isJestMock env = false →
     (∀ s, q = JsString s → bad_length s = true) →
     searchRoute env q page limit requestId w
     = (internal_server_error requestId, w)).
Proof.
  split.
  - unfold searchRoute.
    destruct (search env q _ _ w) as [[m|r] w1] eqn:Hcall; [|left; by exists r].
    right. simpl. unfold next. unfold search in Hcall.
    destruct (negb (fetch_is_function env) || isJestMock env) eqn:Hguard.
    { injection Hcall as <- <-. by apply errorHandler_plain. }
    apply orb_false_iff in Hguard as (Hf%negb_false_iff & Hm).
    destruct q as [| | |s|];
      try (injection Hcall as <- <-; by apply errorHandler_plain).
    destruct (bad_length s).
    { injection Hcall as <- <-. by apply errorHandler_plain. }
    unfold bind at 1 in Hcall.
    destruct (getLatest env w) as [[m'|latest] w2] eqn:Hlatest.
    + injection Hcall as <- <-.
      destruct (getLatest_failure_message env w w2 m' Hf Hlatest) as (cause & ->).
      apply errorHandler_wrapped. simpl. lia.
    + unfold bind in Hcall.
      destruct (search_scan_returns env (toLowerCase (trim s))
                  (scan_count (id latest)) (id latest) [] w2)
        as (all & w3 & Hscan).
      rewrite Hscan in Hcall. discriminate.
  - intros Hf Hm Hbad. unfold searchRoute, search. rewrite Hf, Hm. simpl.
    destruct q as [| | |s|]; simpl; unfold next;
      try (by rewrite errorHandler_plain).
    rewrite (Hbad s eq_refl). simpl. by rewrite errorHandler_plain.
Qed.

(** ** Decimal parameters *)

Lemma pretty_N_char_digit (d : N) :
  (d < 10)%N →
  isDigit (pretty_N_char d) = true
  ∧ Z.of_N (N_of_ascii (pretty_N_char d)) - 48 = Z.of_N d
  ∧ isWhiteSpace (pretty_N_char d) = false
  ∧ pretty_N_char d ≠ "-"%char ∧ pretty_N_char d ≠ "+"%char.
Proof.
  intros Hd.
  assert (d = 0 ∨ d = 1 ∨ d = 2 ∨ d = 3 ∨ d = 4 ∨ d = 5 ∨ d = 6 ∨ d = 7
          ∨ d = 8 ∨ d = 9)%N as Hcases by lia.
  repeat (destruct Hcases as [->|Hcases]); try subst d; by split_and!.
Qed.

(** Reading back the digits that [pretty_N_go] writes in front of [s]. *)
Lemma digits_prefix_pretty_N_go (x : N) :
  ∀ (s : string) (acc : option Z),
    (0 < x)%N →
    ∃ k : nat,
      digits_prefix (pretty_N_go x s) acc
      = digits_prefix s (Some (default 0 acc * 10 ^ Z.of_nat k + Z.of_N x)).
Proof.
  induction (N.lt_wf_0 x) as [x _ IH]. intros s acc Hx.
  rewrite pretty_N_go_step by done.
  destruct (pretty_N_char_digit (x mod 10)) as (Hdigit & Hval & _);
    [by apply N.mod_lt|].
  pose proof (N.div_mod x 10 ltac:(done)) as Hdm.
  destruct (decide (x / 10 = 0)%N) as [Hzero|Hpos].
  - rewrite Hzero, pretty_N_go_0. exists 1%nat.
    simpl digits_prefix. rewrite Hdigit, Hval. do 2 f_equal.
    change (10 ^ Z.of_nat 1) with 10. rewrite Hzero in Hdm.
    set (a := default 0 acc). clearbody a.
    assert (Hsmall : (x mod 10 = x)%N) by (clear -Hdm; lia).
    rewrite Hsmall. clear. lia.
  - assert (Hlt : (x / 10 < x)%N) by (apply N.div_lt; clear -Hx; lia).
    assert (Hgt : (0 < x / 10)%N) by (by apply N.neq_0_lt_0).
    destruct (IH (x / 10)%N Hlt (String (pretty_N_char (x mod 10)) s) acc Hgt)
      as (k & ->).
    exists (S k). simpl digits_prefix. rewrite Hdigit, Hval. do 2 f_equal.
    change (default 0 (Some ?v)) with v.
    rewrite Nat2Z.inj_succ, Z.pow_succ_r by lia.
    set (a := default 0 acc). clearbody a.
    set (P := 10 ^ Z.of_nat k). clearbody P.
    assert (Hsplit : Z.of_N x = 10 * Z.of_N (x / 10) + Z.of_N (x mod 10))
      by (clear -Hdm; lia).
    clear -Hsplit. lia.
Qed.

(** What [pretty_N_go] writes for a positive number starts with a digit. *)
Lemma pretty_N_go_head (x : N) :
  ∀ s : string,
    (0 < x)%N →
    ∃ d r, (d < 10)%N ∧ pretty_N_go x s = String (pretty_N_char d) r.
Proof.
  induction (N.lt_wf_0 x) as [x _ IH]. intros s Hx.
  rewrite pretty_N_go_step by done.
  destruct (decide (x / 10 = 0)%N) as [Hzero|Hpos].
  - rewrite Hzero, pretty_N_go_0. exists (x mod 10)%N, s.
    split; [by apply N.mod_lt|done].
  - apply IH; [apply N.div_lt; lia|by apply N.neq_0_lt_0].
Qed.

Lemma parseInt10_positive (p : positive) :
  parseInt10 (pretty_N_go (Npos p) "") = JsInt (Zpos p).
Proof.
  destruct (pretty_N_go_head (Npos p) "" ltac:(lia)) as (d & r & Hd & Hhead).
  destruct (digits_prefix_pretty_N_go (Npos p) "" None ltac:(lia))
    as (k & Hdigits).
  destruct (pretty_N_char_digit d Hd) as (_ & _ & Hws & Hminus & Hplus).
  unfold parseInt10. rewrite Hhead. simpl trimStart. rewrite Hws.
  assert (Hsign : match String (pretty_N_char d) r with
                  | String "-" r' => (-1, r')
                  | String "+" r' => (1, r')
                  | _ => (1, String (pretty_N_char d) r)
                  end = (1, String (pretty_N_char d) r)).
  { clear -Hd.
    assert (d = 0 ∨ d = 1 ∨ d = 2 ∨ d = 3 ∨ d = 4 ∨ d = 5 ∨ d = 6 ∨ d = 7
            ∨ d = 8 ∨ d = 9)%N as Hcases by lia.
    repeat (destruct Hcases as [->|Hcases]); try subst d; done. }
  rewrite Hsign, <- Hhead, Hdigits. simpl. by f_equal.
Qed.

Lemma parseInt10_pretty (n : Z) : parseInt10 (pretty n) = JsInt n.
Proof.
  destruct n as [|p|p]; [done| |].
  - apply parseInt10_positive.
  - change (pretty (Z.neg p)) with (String "-" (pretty_N_go (Npos p) "")).
    destruct (digits_prefix_pretty_N_go (Npos p) "" None ltac:(lia))
      as (k & Hdigits).
    unfold parseInt10. simpl trimStart. cbv iota beta.
    rewrite Hdigits. simpl. by f_equal.
Qed.

(** X22.  A parameter that is the decimal notation of an integer [n]
    below 2^53 in size is read back as [n]; so for such a positive [n] the
    route [/:id] asks the service for comic [n], and a request it issues
    goes to the URL with the same digits. *)
Theorem idRoute_decimal_param (env : Env) (n : Z) (requestId : option string)
    (w : World) :
  - 2 ^ 53 < n < 2 ^ 53 →
  parseInt10 (pretty n) = JsInt n
  ∧ (requests (snd (idRoute env (pretty n) requestId w)) = requests w
     ∨ requests (snd (idRoute env (pretty n) requestId w))
       = (now w, baseUrl +:+ "/" +:+ pretty n +:+ "/info.0.json")
           :: requests w).
Proof.
  intros Hsafe.
  split; [apply parseInt10_pretty|].
  unfold idRoute. rewrite parseInt10_pretty.
  pose proof (getById_requests env n w) as Hone.
  destruct (getById env (JsInt n) w) as [[m|c] w1]; simpl in Hone; [|done].
  destruct (includes m "Comic not found"); [done|].
  by destruct (includes m "Invalid comic ID").
Qed.

Lemma idRoute_decimal_param_witness :
  parseInt10 "614" = JsInt 614
  ∧ requests (snd (idRoute (node_fetch archive) "614" None (boot 1000)))
    = [(1000, "https://xkcd.com/614/info.0.json")].
Proof.
  destruct (idRoute_decimal_param (node_fetch archive) 614 None (boot 1000))
    as (Hparse & Hlog); [lia|].
  split; [exact Hparse|].
  destruct Hlog as [Hlog|Hlog]; [by vm_compute in Hlog|exact Hlog].
Defined.

(** * Properties of the request counters *)

Lemma counted_insert (m : gmap string Z) (endpoint : string) :
  map_fold (fun _ n acc => n + acc) 0
    (<[endpoint := or_zero (m !! endpoint) + 1]> m)
  = map_fold (fun _ n acc => n + acc) 0 m + 1.
Proof.
  destruct (m !! endpoint) as [v|] eqn:Hlook; simpl.
  - rewrite <- insert_delete_eq.
    rewrite map_fold_insert_L;
      [|intros; lia|apply lookup_delete_eq].
    rewrite (map_fold_delete_L _ 0 endpoint v m); [lia|intros; lia|done].
  - rewrite map_fold_insert_L; [lia|intros; lia|done].
Qed.

Lemma statsMiddleware_counts (method path : string) (stats : Stats) :
  totalRequests (statsMiddleware method path stats) = totalRequests stats + 1
  ∧ counted (statsMiddleware method path stats) = counted stats + 1.
Proof. split; [done|]. unfold counted. simpl. apply counted_insert. Qed.

(** X23.  The counters stay consistent: after any sequence of requests
    through the stats middleware, [totalRequests] has grown by the number
    of requests and so has the sum of the per-endpoint counters; started
    from the initial counters, the two are equal. *)
Theorem stats_consistent (reqs : list (string * string)) (stats : Stats) (t : Z) :
  totalRequests (serve reqs stats)
    = totalRequests stats + Z.of_nat (length reqs)
  ∧ counted (serve reqs stats) = counted stats + Z.of_nat (length reqs)
  ∧ counted (serve reqs (initial_stats t))
    = totalRequests (serve reqs (initial_stats t))
  ∧ startTime (serve reqs stats) = startTime stats.
Proof.
  assert (Hgen : ∀ st,
             totalRequests (serve reqs st)
               = totalRequests st + Z.of_nat (length reqs)
             ∧ counted (serve reqs st) = counted st + Z.of_nat (length reqs)
             ∧ startTime (serve reqs st) = startTime st).
  { induction reqs as [|[method path] reqs IH]; intros st.
    - simpl. split_and!; [lia|lia|done].
    - change (serve ((method, path) :: reqs) st)
        with (serve reqs (statsMiddleware method path st)).
      destruct (IH (statsMiddleware method path st)) as (Htotal & Hsum & Hstart).
      destruct (statsMiddleware_counts method path st) as (Hone & Hsum1).
      rewrite Htotal, Hsum, Hstart, Hone, Hsum1.
      split_and!; [simpl length; lia..|done]. }
  destruct (Hgen stats) as (Htotal & Hsum & Hstart).
  destruct (Hgen (initial_stats t)) as (Htotal0 & Hsum0 & _).
  split_and!; try done.
  rewrite Htotal0, Hsum0. unfold counted. simpl.
  by rewrite map_fold_empty.
Qed.

Lemma occurrences_cons (endpoint method path : string)
    (reqs : list (string * string)) :
  occurrences endpoint ((method, path) :: reqs)
  = (if decide (method +:+ " " +:+ path = endpoint) then 1 else 0)
    + occurrences endpoint reqs.
Proof.
  unfold occurrences. rewrite filter_cons. simpl.
  destruct (decide (method +:+ " " +:+ path = endpoint)); simpl; lia.
Qed.

Lemma occurrences_nonneg (endpoint : string) (reqs : list (string * string)) :
  0 ≤ occurrences endpoint reqs.
Proof. unfold occurrences. lia. Qed.

(** X24.  After a sequence of requests, the counter of an endpoint is its
    previous value plus the number of requests to that endpoint; an
    endpoint that was not requested keeps its entry, or its absence,
    untouched.  From the initial counters, an endpoint has an entry
    exactly when it was requested, holding the number of its requests. *)
Theorem stats_per_endpoint (reqs : list (string * string)) (stats : Stats)
    (endpoint : string) (t : Z) :
  endpointStats (serve reqs stats) !! endpoint
    = (if decide (occurrences endpoint reqs = 0)
       then endpointStats stats !! endpoint
       else Some (or_zero (endpointStats stats !! endpoint)
                  + occurrences endpoint reqs))
  ∧ endpointStats (serve reqs (initial_stats t)) !! endpoint
    = (if decide (occurrences endpoint reqs = 0) then None
       else Some (occurrences endpoint reqs)).
Proof.
  assert (Hgen : ∀ st,
             endpointStats (serve reqs st) !! endpoint
             = (if decide (occurrences endpoint reqs = 0)
                then endpointStats st !! endpoint
                else Some (or_zero (endpointStats st !! endpoint)
                           + occurrences endpoint reqs))).
  { induction reqs as [|[method path] reqs IH]; intros st; [done|].
    change (serve ((method, path) :: reqs) st)
      with (serve reqs (statsMiddleware method path st)).
    rewrite IH, occurrences_cons.
    pose proof (occurrences_nonneg endpoint reqs) as Hpos.
    simpl endpointStats.
    destruct (decide (method +:+ " " +:+ path = endpoint)) as [->|Hother].
    - rewrite lookup_insert_eq. simpl or_zero.
      destruct (decide (occurrences endpoint reqs = 0)) as [Hzero|Hmore].
      + rewrite Hzero. destruct (decide (1 + 0 = 0)); [lia|].
        by f_equal.
      + destruct (decide (1 + occurrences endpoint reqs = 0)); [lia|].
        f_equal. lia.
    - rewrite lookup_insert_ne by done.
      destruct (decide (occurrences endpoint reqs = 0)) as [Hzero|Hmore].
      + rewrite Hzero. by destruct (decide (0 + 0 = 0)).
      + destruct (decide (0 + occurrences endpoint reqs = 0)); [lia|].
        f_equal. }
  split; [apply Hgen|].
  rewrite Hgen. simpl. rewrite lookup_empty. simpl.
  destruct (decide (occurrences endpoint reqs = 0)); [done|].
  by f_equal.
Qed.

(** * The method guards *)

(** X25.  When [fetch] is a Jest mock, or is not a function at all,
    [getById], [getRandom] and [search] refuse to run: each throws its own
    [... method not implemented] and leaves the world as it was.
    [getLatest] does not look at the mock flag: with a mocked [fetch] it
    runs as with the real one, and it refuses only when [fetch] is not a
    function. *)
Theorem method_guards (env : Env) (i q p l : JsValue) (w : World) :
  isJestMock env = true ∨ fetch_is_function env = false →
  getById env i w = (inl "getById method not implemented", w)
  ∧ getRandom env w = (inl "getRandom method not implemented", w)
  ∧ search env q p l w = (inl "search method not implemented", w)
  ∧ getLatest env w = getLatest (unmocked env) w
  ∧ (fetch_is_function env = false →
     getLatest env w = (inl "getLatest method not implemented", w)).
Proof.
  intros Hguard.
  assert (Hor : negb (fetch_is_function env) || isJestMock env = true).
  { destruct Hguard as [->| ->]; [apply orb_true_r|done]. }
  unfold getById, getRandom, search, getLatest. rewrite Hor.
  split_and!; try done.
  by intros ->.
Qed.

Lemma method_guards_witness :
  getById (jest_mock archive) (JsInt 1) (boot 1000)
    = (inl "getById method not implemented", boot 1000)
  ∧ fst (getLatest (jest_mock archive) (boot 1000))
    = inr (processComic (sample_comic 3 "Python")).
Proof.
  destruct (method_guards (jest_mock archive) (JsInt 1) JsUndefined JsUndefined
              JsUndefined (boot 1000))
    as (HbyId & _ & _ & Hlatest & _); [by left|].
  split; [exact HbyId|]. rewrite Hlatest. by vm_compute.
Defined.
